(** * copy-and-subst.mjs: the template expression resolver and the tree copier

    A shallow embedding of [src/etc/copy-and-subst.mjs].  JavaScript values
    are a tagged type, the built-in operations the script calls ([split],
    [trim], [join], [parseInt], [JSON.stringify], [String], the two regular
    expressions) are written out as functions on strings, and exceptions are
    an explicit result type.

    Scope of the data model.  Strings are sequences of 8-bit characters and
    are meant to hold ASCII text: white space is the ASCII white space of
    [String.prototype.trim] and of the regular expression class [\s], and
    case mapping acts on the letters A-Z and a-z.  Numbers are integers (the
    values for which [String] prints a plain decimal numeral); fractional
    JSON numbers are outside the model. *)

From Stdlib Require Import Strings.String Strings.Ascii Lists.List ZArith Lia Bool
  Numbers.DecimalString Numbers.DecimalNat Arith.PeanoNat.
Import ListNotations.

Local Open Scope list_scope.
Local Open Scope string_scope.

#[local] Set Warnings "-register-all".

(** ** Characters and strings *)

(** The white space of [trim] and of [\s], restricted to ASCII:
    TAB, LF, VT, FF, CR and SPACE. *)
Definition is_space (c : ascii) : bool :=
  let n := nat_of_ascii c in
  (Nat.eqb n 9 || Nat.eqb n 10 || Nat.eqb n 11 || Nat.eqb n 12 || Nat.eqb n 13
   || Nat.eqb n 32)%bool.

Fixpoint trimStart (s : string) : string :=
  match s with
  | EmptyString => EmptyString
  | String c s' => if is_space c then trimStart s' else s
  end.

(** [trimEnd s] drops the trailing white space: a character is kept when it
    is not white space or when something is kept after it. *)
Fixpoint trimEnd (s : string) : string :=
  match s with
  | EmptyString => EmptyString
  | String c s' =>
      match trimEnd s' with
      | EmptyString => if is_space c then EmptyString else String c EmptyString
      | t => String c t
      end
  end.

(** [s.trim()] *)
Definition trim (s : string) : string := trimEnd (trimStart s).

(** [s.startsWith(p)] *)
Fixpoint startsWith (p s : string) : bool :=
  match p with
  | EmptyString => true
  | String a p' =>
      match s with
      | EmptyString => false
      | String b s' => (Ascii.eqb a b && startsWith p' s')%bool
      end
  end.

Fixpoint drop (n : nat) (s : string) : string :=
  match n with
  | O => s
  | S n' => match s with EmptyString => EmptyString | String _ s' => drop n' s' end
  end.

Fixpoint take (n : nat) (s : string) : string :=
  match n with
  | O => EmptyString
  | S n' => match s with EmptyString => EmptyString | String c s' => String c (take n' s') end
  end.

(** [s.endsWith(p)] *)
Definition endsWith (p s : string) : bool :=
  (Nat.leb (String.length p) (String.length s)
   && String.eqb (drop (String.length s - String.length p) s) p)%bool.

(** [s.slice(0, -n)] *)
Definition slice_end (n : nat) (s : string) : string := take (String.length s - n) s.

(** [s.split(sep)] for a separator string.  The scan goes left to right;
    [skip] counts the characters of a separator occurrence still to pass, so
    occurrences never overlap.  The result is never empty for a non-empty
    separator; [head] is the piece being built.  *)
Fixpoint split_from (sep : string) (skip : nat) (s : string) : list string :=
  match s with
  | EmptyString => [EmptyString]
  | String c s' =>
      match skip with
      | S k => split_from sep k s'
      | O =>
          if startsWith sep s
          then EmptyString :: split_from sep (String.length sep - 1) s'
          else match split_from sep 0 s' with
               | hd :: tl => String c hd :: tl
               | [] => [String c EmptyString]
               end
      end
  end.

Fixpoint chars (s : string) : list string :=
  match s with
  | EmptyString => []
  | String c s' => String c EmptyString :: chars s'
  end.

(** With the empty separator [split] returns the characters one by one. *)
Definition split (sep s : string) : list string :=
  match sep with
  | EmptyString => chars s
  | _ => split_from sep 0 s
  end.

(** [parts.join(sep)] on an array of strings. *)
Fixpoint join (sep : string) (parts : list string) : string :=
  match parts with
  | [] => EmptyString
  | [x] => x
  | x :: rest => x ++ sep ++ join sep rest
  end.

Fixpoint repeat_string (s : string) (n : nat) : string :=
  match n with
  | O => EmptyString
  | S n' => s ++ repeat_string s n'
  end.

Fixpoint mem_char (c : ascii) (s : string) : bool :=
  match s with
  | EmptyString => false
  | String a s' => (Ascii.eqb a c || mem_char c s')%bool
  end.

(** Decimal numerals, as [String] prints an integer. *)
Definition decimal (z : Z) : string := NilZero.string_of_int (Z.to_int z).

Definition decimal_nat (n : nat) : string := NilZero.string_of_uint (Nat.to_uint n).

(** ** Values *)

(** What [JSON.parse] builds.  An object is the list of its own properties in
    the order the engine enumerates them; the first binding of a key is the
    property. *)
Inductive json : Type :=
  | JNull
  | JBool (b : bool)
  | JNum (n : Z)
  | JStr (s : string)
  | JArr (elems : list json)
  | JObj (props : list (string * json)).

(** The values the script handles: [undefined], the data, and what a property
    lookup finds on the prototype chain of an object or an array (built-in
    functions and the two prototype objects). *)
Inductive value : Type :=
  | VUndefined
  | VJson (j : json)
  | VFunction (name : string)
  | VObjectPrototype
  | VArrayPrototype.

Definition VStr (s : string) : value := VJson (JStr s).
Definition VNum (n : Z) : value := VJson (JNum n).
Definition VBool (b : bool) : value := VJson (JBool b).
Definition VNull : value := VJson JNull.

Inductive js_type : Type :=
  | TUndefined | TObject | TBoolean | TNumber | TString | TFunction.

Definition typeof (v : value) : js_type :=
  match v with
  | VUndefined => TUndefined
  | VJson JNull => TObject
  | VJson (JBool _) => TBoolean
  | VJson (JNum _) => TNumber
  | VJson (JStr _) => TString
  | VJson (JArr _) => TObject
  | VJson (JObj _) => TObject
  | VFunction _ => TFunction
  | VObjectPrototype => TObject
  | VArrayPrototype => TObject
  end.

Definition js_type_eqb (a b : js_type) : bool :=
  match a, b with
  | TUndefined, TUndefined | TObject, TObject | TBoolean, TBoolean
  | TNumber, TNumber | TString, TString | TFunction, TFunction => true
  | _, _ => false
  end.

(** [ToBoolean] *)
Definition truthy (v : value) : bool :=
  match v with
  | VUndefined => false
  | VJson JNull => false
  | VJson (JBool b) => b
  | VJson (JNum n) => negb (Z.eqb n 0)
  | VJson (JStr s) => negb (String.eqb s EmptyString)
  | _ => true
  end.

(** [v !== undefined] *)
Definition is_undefined (v : value) : bool :=
  match v with VUndefined => true | _ => false end.

Fixpoint assoc {A : Type} (k : string) (l : list (string * A)) : option A :=
  match l with
  | [] => None
  | (k', v) :: l' => if String.eqb k' k then Some v else assoc k l'
  end.

Fixpoint mem_string (k : string) (l : list string) : bool :=
  match l with
  | [] => false
  | k' :: l' => (String.eqb k' k || mem_string k l')%bool
  end.

(** The string-keyed properties of [Object.prototype] (ECMA-262, 20.1.3 and
    B.2.2) other than [constructor] and the accessor [__proto__]. *)
Definition Object_prototype_methods : list string :=
  [ "hasOwnProperty"; "isPrototypeOf"; "propertyIsEnumerable"; "toLocaleString";
    "toString"; "valueOf"; "__defineGetter__"; "__defineSetter__";
    "__lookupGetter__"; "__lookupSetter__" ].

(** The string-keyed methods of [Array.prototype] (ECMA-262, 23.1.3) other
    than [constructor]. *)
Definition Array_prototype_methods : list string :=
  [ "at"; "concat"; "copyWithin"; "entries"; "every"; "fill"; "filter"; "find";
    "findIndex"; "findLast"; "findLastIndex"; "flat"; "flatMap"; "forEach";
    "includes"; "indexOf"; "join"; "keys"; "lastIndexOf"; "map"; "pop"; "push";
    "reduce"; "reduceRight"; "reverse"; "shift"; "slice"; "some"; "sort";
    "splice"; "toLocaleString"; "toReversed"; "toSorted"; "toSpliced";
    "toString"; "unshift"; "values"; "with" ].

(** A property found on [Object.prototype]; [proto] is the prototype of the
    object the lookup started from, which the getter [__proto__] returns. *)
Definition Object_prototype_get (proto : value) (key : string) : option value :=
  if String.eqb key "__proto__" then Some proto
  else if String.eqb key "constructor" then Some (VFunction "Object")
  else if mem_string key Object_prototype_methods then Some (VFunction key)
  else None.

(** A property found on [Array.prototype] or above it. *)
Definition Array_prototype_get (proto : value) (key : string) : option value :=
  if String.eqb key "constructor" then Some (VFunction "Array")
  else if mem_string key Array_prototype_methods then Some (VFunction key)
  else Object_prototype_get proto key.

(** The canonical array index a key denotes: ["0"], ["1"], ... and nothing
    else (not ["01"], not ["+1"]). *)
Definition array_index (key : string) : option nat :=
  match NilZero.uint_of_string key with
  | Some u =>
      let n := Nat.of_uint u in
      if String.eqb (decimal_nat n) key then Some n else None
  | None => None
  end.

(** The own properties of an array: its elements and [length]. *)
Definition array_own (elems : list json) (key : string) : option value :=
  if String.eqb key "length" then Some (VNum (Z.of_nat (List.length elems)))
  else match array_index key with
       | Some i => option_map VJson (nth_error elems i)
       | None => None
       end.

(** The inherited property names: those [key in acc] finds although the
    object or array has no such property of its own. *)
Definition inherited_name (key : string) : bool :=
  (String.eqb key "__proto__" || String.eqb key "constructor"
   || mem_string key Object_prototype_methods
   || mem_string key Array_prototype_methods)%bool.

(** [key in acc ? Some acc[key] : None], for [acc] an object in the sense of
    [typeof]; [None] for the values [in] is never applied to. *)
Definition property (acc : value) (key : string) : option value :=
  match acc with
  | VJson (JObj props) =>
      match assoc key props with
      | Some v => Some (VJson v)
      | None => Object_prototype_get VObjectPrototype key
      end
  | VJson (JArr elems) =>
      match array_own elems key with
      | Some v => Some v
      | None => Array_prototype_get VArrayPrototype key
      end
  | VArrayPrototype =>
      if String.eqb key "length" then Some (VNum 0)
      else Array_prototype_get VObjectPrototype key
  | VObjectPrototype => Object_prototype_get VNull key
  | _ => None
  end.

(** ** [get] *)

(** The callback of [reduce]:
    [(acc && typeof acc === 'object' && key in acc) ? acc[key] : undefined]. *)
Definition get_step (acc : value) (key : string) : value :=
  if (truthy acc && js_type_eqb (typeof acc) TObject)%bool
  then match property acc key with
       | Some v => v
       | None => VUndefined
       end
  else VUndefined.

Definition dot : string := ".".

(** [path.split('.').reduce(step, obj)] *)
Definition get (obj : value) (path : string) : value :=
  fold_left get_step (split dot path) obj.

(** ** Built-in conversions *)

Definition is_digit (c : ascii) : bool :=
  let n := nat_of_ascii c in (Nat.leb 48 n && Nat.leb n 57)%bool.

(** The value of the longest prefix of decimal digits, with the number of
    digits read. *)
Fixpoint digits_prefix (acc : Z) (count : nat) (s : string) : Z * nat :=
  match s with
  | EmptyString => (acc, count)
  | String c s' =>
      if is_digit c
      then digits_prefix (acc * 10 + Z.of_nat (nat_of_ascii c - 48)) (S count) s'
      else (acc, count)
  end.

(** [parseInt(s, 10)]; [None] is [NaN].  Leading white space is skipped, one
    sign is read, then as many digits as there are. *)
Definition parseInt (s : string) : option Z :=
  let t := trimStart s in
  let '(negative, body) :=
    match t with
    | String "-" t' => (true, t')
    | String "+" t' => (false, t')
    | _ => (false, t)
    end in
  match digits_prefix 0 0 body with
  | (_, O) => None
  | (n, S _) => Some (if negative then (- n)%Z else n)
  end.

Definition hex_digit (n : nat) : ascii :=
  if Nat.ltb n 10 then ascii_of_nat (48 + n) else ascii_of_nat (87 + n).

Definition newline : string := String (ascii_of_nat 10) EmptyString.

(** One character of [QuoteJSONString]. *)
Definition quote_char (c : ascii) : string :=
  let n := nat_of_ascii c in
  if Nat.eqb n 8 then "\b"
  else if Nat.eqb n 9 then "\t"
  else if Nat.eqb n 10 then "\n"
  else if Nat.eqb n 12 then "\f"
  else if Nat.eqb n 13 then "\r"
  else if Nat.eqb n 34 then String "\" (String (ascii_of_nat 34) EmptyString)
  else if Nat.eqb n 92 then "\\"
  else if Nat.ltb n 32
       then "\u00" ++ String (hex_digit (n / 16)) (String (hex_digit (n mod 16)) EmptyString)
       else String c EmptyString.

Fixpoint quote_body (s : string) : string :=
  match s with
  | EmptyString => EmptyString
  | String c s' => quote_char c ++ quote_body s'
  end.

Definition double_quote : string := String (ascii_of_nat 34) EmptyString.

Definition quote (s : string) : string := double_quote ++ quote_body s ++ double_quote.

(** [SerializeJSONProperty] on data: [gap] is the unit of indentation and
    [indent] the current indentation.  Data holds no function and no
    [undefined], so every element and every property is printed. *)
Fixpoint serialize (gap indent : string) (j : json) : string :=
  match j with
  | JNull => "null"
  | JBool true => "true"
  | JBool false => "false"
  | JNum n => decimal n
  | JStr s => quote s
  | JArr elems =>
      let inner := indent ++ gap in
      let partial := map (serialize gap inner) elems in
      match partial with
      | [] => "[]"
      | _ =>
          if String.eqb gap EmptyString
          then "[" ++ join "," partial ++ "]"
          else "[" ++ newline ++ inner ++ join ("," ++ newline ++ inner) partial
               ++ newline ++ indent ++ "]"
      end
  | JObj props =>
      let inner := indent ++ gap in
      let colon := if String.eqb gap EmptyString then ":" else ": " in
      let partial :=
        map (fun kv => quote (fst kv) ++ colon ++ serialize gap inner (snd kv)) props in
      match partial with
      | [] => "{}"
      | _ =>
          if String.eqb gap EmptyString
          then "{" ++ join "," partial ++ "}"
          else "{" ++ newline ++ inner ++ join ("," ++ newline ++ inner) partial
               ++ newline ++ indent ++ "}"
      end
  end.

(** The gap of [JSON.stringify(v, null, space)] for a number [space]: that
    many spaces, at most ten, none below one. *)
Definition gap_of (space : Z) : string :=
  repeat_string " " (Z.to_nat (Z.min 10 space)).

(** [JSON.stringify(v, null, space)]: a string, or [undefined] for
    [undefined] and for a function.  The prototype objects have no enumerable
    property and [Array.prototype] is an empty array. *)
Definition JSON_stringify (v : value) (space : Z) : value :=
  match v with
  | VUndefined => VUndefined
  | VFunction _ => VUndefined
  | VObjectPrototype => VStr "{}"
  | VArrayPrototype => VStr "[]"
  | VJson j => VStr (serialize (gap_of space) EmptyString j)
  end.

(** Exceptions. *)
Inductive exn : Type :=
  | Error (message : string)
  | TypeError (message : string).

Inductive result (A : Type) : Type :=
  | Ok (a : A)
  | Throw (e : exn).

Arguments Ok {A} a.
Arguments Throw {A} e.

Definition bind {A B : Type} (r : result A) (k : A -> result B) : result B :=
  match r with
  | Ok a => k a
  | Throw e => Throw e
  end.

Notation "x <- r ;; k" := (bind r (fun x => k))
  (at level 61, r at next level, right associativity).

Definition cannot_convert : exn := TypeError "Cannot convert object to primitive value".

(** [ToString] on data.  An array is the [join(',')] of its elements, where
    [null] prints as nothing.  An object runs [OrdinaryToPrimitive]: its
    [toString] is the one of [Object.prototype] unless the object has a
    property of that name of its own; data holds no function, so such a
    property is not callable, [valueOf] (own and not callable, or inherited
    and returning the object) gives no primitive either, and the conversion
    throws. *)
Fixpoint ToString_json (j : json) : result string :=
  match j with
  | JNull => Ok "null"
  | JBool true => Ok "true"
  | JBool false => Ok "false"
  | JNum n => Ok (decimal n)
  | JStr s => Ok s
  | JArr elems =>
      parts <- (fix each (l : list json) : result (list string) :=
                  match l with
                  | [] => Ok []
                  | e :: l' =>
                      s <- match e with JNull => Ok EmptyString | _ => ToString_json e end ;;
                      ss <- each l' ;;
                      Ok (s :: ss)
                  end) elems ;;
      Ok (join "," parts)
  | JObj props =>
      match assoc "toString" props with
      | Some _ => Throw cannot_convert
      | None => Ok "[object Object]"
      end
  end.

(** [String(v)] *)
Definition String_ (v : value) : result string :=
  match v with
  | VUndefined => Ok "undefined"
  | VJson j => ToString_json j
  | VFunction name => Ok ("function " ++ name ++ "() { [native code] }")
  | VObjectPrototype => Ok "[object Object]"
  | VArrayPrototype => Ok EmptyString
  end.

(** ** [applyModifiers] *)

Definition lower_char (c : ascii) : ascii :=
  let n := nat_of_ascii c in
  if (Nat.leb 65 n && Nat.leb n 90)%bool then ascii_of_nat (n + 32) else c.

Definition upper_char (c : ascii) : ascii :=
  let n := nat_of_ascii c in
  if (Nat.leb 97 n && Nat.leb n 122)%bool then ascii_of_nat (n - 32) else c.

Fixpoint map_chars (f : ascii -> ascii) (s : string) : string :=
  match s with
  | EmptyString => EmptyString
  | String c s' => String (f c) (map_chars f s')
  end.

(** [s.toLowerCase()] and [s.toUpperCase()] on ASCII text, where they map
    the letters [A]-[Z] and [a]-[z] one to one and keep every other
    character.  On letters outside ASCII the built-in functions do more (a
    character may even become two): what is proved of these definitions is
    a statement about the program for ASCII text only, and the properties
    that depend on the mapping carry the hypothesis [ascii_text]. *)
Definition toLowerCase : string -> string := map_chars lower_char.
Definition toUpperCase : string -> string := map_chars upper_char.

(** [s.replace(/a/g, b)] for single characters. *)
Definition replace_char (a b : ascii) : string -> string :=
  map_chars (fun c => if Ascii.eqb c a then b else c).

(** The [switch] on the modifier, entered when [result] is a string. *)
Definition string_modifier (modifier : string) (s : string) : string :=
  if String.eqb modifier "lower" then toLowerCase s
  else if String.eqb modifier "upper" then toUpperCase s
  else if String.eqb modifier "_" then replace_char "-" "_" s
  else if String.eqb modifier "-" then replace_char "_" "-" s
  else s.

(** The [else if (typeof result === 'string')] branch. *)
Definition other_modifier (modifier : string) (result : value) : value :=
  match result with
  | VJson (JStr s) => VStr (string_modifier modifier s)
  | _ => result
  end.

(** The loop [for (let i = ...; i < modifiers.length; i++)] from index [i]
    with the current [result]; one unit of [fuel] per iteration. *)
Fixpoint applyModifiers_from (fuel : nat) (modifiers : list string) (i : nat)
    (result : value) : value :=
  match fuel with
  | O => result
  | S fuel' =>
      match nth_error modifiers i with
      | None => result
      | Some modifier =>
          if String.eqb modifier "json"
          then
            match
              match nth_error modifiers (i + 1) with
              | Some next => parseInt next
              | None => None
              end
            with
            | Some indent =>
                applyModifiers_from fuel' modifiers (i + 2) (JSON_stringify result indent)
            | None =>
                applyModifiers_from fuel' modifiers (i + 1) (JSON_stringify result 2)
            end
          else applyModifiers_from fuel' modifiers (i + 1) (other_modifier modifier result)
      end
  end.

(** [applyModifiers(value, modifiers)]: the index grows at every iteration,
    so [modifiers.length] iterations are always enough. *)
Definition applyModifiers (v : value) (modifiers : list string) : value :=
  applyModifiers_from (List.length modifiers) modifiers 0 v.

(** ** [resolveExpression] *)

(** The longest prefix without the character [c], and what follows it. *)
Fixpoint span_not (c : ascii) (s : string) : string * string :=
  match s with
  | EmptyString => (EmptyString, EmptyString)
  | String a s' =>
      if Ascii.eqb a c then (EmptyString, s)
      else let '(run, rest) := span_not c s' in (String a run, rest)
  end.

(** A match of [/@([^@]+)@/] at the start of [s]: the group, when [s] is
    ['@'], one or more characters other than ['@'], and ['@']. *)
Definition match_at (s : string) : option string :=
  match s with
  | String "@" s' =>
      match span_not "@" s' with
      | (String c run, String _ _) => Some (String c run)
      | _ => None
      end
  | _ => None
  end.

(** [s.replace(/@([^@]+)@/g, (innerMatch, innerPath) => callback(innerPath))]:
    the matches are found left to right and do not overlap; [skip] counts
    the characters of the current match still to pass.  The callback runs at
    each match in order, so the first one that throws ends the call. *)
Fixpoint replace_at (callback : string -> result string) (skip : nat) (s : string)
    : result string :=
  match s with
  | EmptyString => Ok EmptyString
  | String c s' =>
      match skip with
      | S k => replace_at callback k s'
      | O =>
          match match_at s with
          | Some innerPath =>
              r <- callback innerPath ;;
              t <- replace_at callback (String.length innerPath + 1) s' ;;
              Ok (r ++ t)
          | None =>
              t <- replace_at callback 0 s' ;;
              Ok (String c t)
          end
      end
  end.

(** The callback of the secondary substitution. *)
Definition default_callback (expr : string) (substitutions : value) (sourcePath : string)
    (innerPath : string) : result string :=
  let innerValue := get substitutions (trim innerPath) in
  match innerValue with
  | VJson (JStr s) => Ok s
  | VJson (JNum n) => Ok (decimal n)
  | _ =>
      Throw (Error ("Variable '@" ++ trim innerPath ++ "@' inside default for '" ++ expr
                    ++ "' in '" ++ sourcePath ++ "' must resolve to a string or number."))
  end.

(** [expr.split('=').map(s => s.trim())] *)
Definition expression_parts (expr : string) : list string := map trim (split "=" expr).

(** [fallbacksStr]: [split] returns at least one piece. *)
Definition fallbacksStr_of (expr : string) : string := hd EmptyString (expression_parts expr).

(** [defaultValue], [None] for [undefined]. *)
Definition defaultValue_of (expr : string) : option string :=
  match tl (expression_parts expr) with
  | [] => None
  | defaultParts => Some (trim (join "=" defaultParts))
  end.

(** [fallbacksStr.split('|').map(s => s.trim())] *)
Definition fallbacks_of (expr : string) : list string :=
  map trim (split "|" (fallbacksStr_of expr)).

(** [const [path, ...modifiers] = fallback.split(':').map(s => s.trim())] *)
Definition fallback_path (fallback : string) : string :=
  hd EmptyString (map trim (split ":" fallback)).

Definition fallback_modifiers (fallback : string) : list string :=
  tl (map trim (split ":" fallback)).

(** The [for (const fallback of fallbacks)] loop: the value of
    [resolvedValue] after it, [undefined] when no iteration assigned it. *)
Fixpoint resolve_fallbacks (substitutions : value) (fallbacks : list string) : value :=
  match fallbacks with
  | [] => VUndefined
  | fallback :: rest =>
      let v := get substitutions (fallback_path fallback) in
      if negb (is_undefined v)
      then applyModifiers v (fallback_modifiers fallback)
      else resolve_fallbacks substitutions rest
  end.

Definition unresolved_error (fallbacks : list string) (sourcePath : string) : exn :=
  Error ("Variable '" ++ join " | " fallbacks ++ "' could not be resolved in file '"
         ++ sourcePath ++ "'.").

Definition resolveExpression (expr : string) (substitutions : value) (sourcePath : string)
    : result string :=
  let defaultValue := defaultValue_of expr in
  let fallbacks := fallbacks_of expr in
  let resolvedValue := resolve_fallbacks substitutions fallbacks in
  if is_undefined resolvedValue
  then
    match defaultValue with
    | Some text =>
        s <- replace_at (default_callback expr substitutions sourcePath) 0 text ;;
        String_ (VStr s)
    | None => Throw (unresolved_error fallbacks sourcePath)
    end
  else String_ resolvedValue.

(** ** [copyAndSubstitute] *)

Definition last_char (s : string) : string := drop (String.length s - 1) s.

(** What the group of [/{{\s*([^}]+?)\s*}}/] captures when the text between
    the braces is [body] (not empty, no ['}']).  The first [\s*] takes the
    leading white space and the lazy group stops before the trailing white
    space; when [body] is white space only, the first [\s*] gives back its
    last character, which is all the group takes. *)
Definition captured (body : string) : string :=
  match trimStart body with
  | EmptyString => last_char body
  | t => trimEnd t
  end.

(** A match of the pattern at the start of [s]: [(match[0], match[1])].  The
    group cannot cross a ['}'], so the text between the braces ends at the
    first ['}'], which has to be followed by another one. *)
Definition match_braces (s : string) : option (string * string) :=
  match s with
  | String "{" (String "{" rest) =>
      match span_not "}" rest with
      | (String c body, String _ (String "}" _)) =>
          Some ("{{" ++ String c body ++ "}}", captured (String c body))
      | _ => None
      end
  | _ => None
  end.

(** [content.matchAll(regex)]: the matches from left to right, the search
    resuming after each match. *)
Fixpoint matchAll (skip : nat) (content : string) : list (string * string) :=
  match content with
  | EmptyString => []
  | String _ content' =>
      match skip with
      | S k => matchAll k content'
      | O =>
          match match_braces content with
          | Some m => m :: matchAll (String.length (fst m) - 1) content'
          | None => matchAll 0 content'
          end
      end
  end.

Record replacement : Type := { find : string; replace : string }.

(** The first loop: every expression is resolved, in order; the first
    failure ends it. *)
Fixpoint resolve_matches (substitutions : value) (source : string)
    (matches : list (string * string)) : result (list replacement) :=
  match matches with
  | [] => Ok []
  | (fullMatch, expr) :: rest =>
      r <- resolveExpression expr substitutions source ;;
      replacements <- resolve_matches substitutions source rest ;;
      Ok ({| find := fullMatch; replace := r |} :: replacements)
  end.

(** The second loop: [content = content.split(rep.find).join(rep.replace)]
    for each replacement in turn. *)
Definition apply_replacements (replacements : list replacement) (content : string) : string :=
  fold_left (fun content rep => join (replace rep) (split (find rep) content))
            replacements content.

(** The content written for a template file. *)
Definition substitute_template (substitutions : value) (source content : string)
    : result string :=
  replacements <- resolve_matches substitutions source (matchAll 0 content) ;;
  Ok (apply_replacements replacements content).

(** The source tree as [fs.stat], [fs.readdir] and [fs.readFile] show it. *)
Inductive node : Type :=
  | File (content : string)
  | Directory (entries : list (string * node))
  | Special.

(** The calls that change the file system. *)
Inductive fs_call : Type :=
  | mkdir (path : string)
  | writeFile (path content : string)
  | copyFile (src dst : string).

(** A run: the calls made, and the exception that ended it, if any. *)
Definition run : Type := list fs_call * option exn.

Definition done (calls : list fs_call) : run := (calls, None).

Definition and_then (a b : run) : run :=
  match snd a with
  | Some _ => a
  | None => ((fst a ++ fst b)%list, snd b)
  end.

Definition slash : ascii := "/"%char.

Fixpoint has_non_slash (s : string) : bool :=
  match s with
  | EmptyString => false
  | String c s' => (negb (Ascii.eqb c slash) || has_non_slash s')%bool
  end.

(** The index [end] of [path.dirname]: the last ['/'] at index 1 or more
    that some other character follows; [s] is the path from index [i]. *)
Fixpoint dirname_end (i : nat) (s : string) : option nat :=
  match s with
  | EmptyString => None
  | String c s' =>
      match dirname_end (S i) s' with
      | Some e => Some e
      | None => if (Ascii.eqb c slash && has_non_slash s')%bool then Some i else None
      end
  end.

(** [path.dirname(p)] (POSIX). *)
Definition dirname (p : string) : string :=
  match p with
  | EmptyString => "."
  | String c rest =>
      match dirname_end 1 rest with
      | None => if Ascii.eqb c slash then "/" else "."
      | Some e => if (Ascii.eqb c slash && Nat.eqb e 1)%bool then "//" else take e p
      end
  end.

(** [path.join(dir, file)] for a normalized absolute [dir], as
    [path.resolve] returns it, and the name [file] of a directory entry, as
    [fs.readdir] lists it: there [path.join] has nothing to normalize and
    puts one ['/'] between the two.  The properties that depend on it carry
    these conditions as the hypotheses [resolved_path] and [entry_name]. *)
Definition path_join (dir file : string) : string :=
  if String.eqb dir "/" then dir ++ file else dir ++ "/" ++ file.

Definition tmpl : string := ".tmpl".

(** [target.endsWith('.tmpl') ? target.slice(0, -5) : target] *)
Definition finalTargetPath (target : string) : string :=
  if endsWith tmpl target then slice_end 5 target else target.

(** [copyAndSubstitute(source, target, substitutions)], where [n] is what
    the file system holds at [source]. *)
Fixpoint copyAndSubstitute (n : node) (source target : string) (substitutions : value)
    : run :=
  match n with
  | Directory entries =>
      and_then (done [mkdir target])
        ((fix each (l : list (string * node)) : run :=
            match l with
            | [] => done []
            | (file, child) :: l' =>
                and_then
                  (copyAndSubstitute child (path_join source file) (path_join target file)
                     substitutions)
                  (each l')
            end) entries)
  | File content =>
      and_then (done [mkdir (dirname (finalTargetPath target))])
        (if endsWith tmpl source
         then match substitute_template substitutions source content with
              | Ok text => done [writeFile (finalTargetPath target) text]
              | Throw e => ([], Some e)
              end
         else done [copyFile source (finalTargetPath target)])
  | Special => done []
  end.

(** ** [main] *)

(** What [main] reads from the process and the file system: [process.argv0],
    [path.relative(process.cwd(), p)], [path.resolve(p)], the data
    [JSON.parse(await fs.readFile(p, 'utf-8'))] (or what it throws) and what
    [fs.stat] finds at a path (or what it throws). *)
Record environment : Type := {
  argv0 : string;
  relative_to_cwd : string -> string;
  resolve : string -> string;
  read_json : string -> result value;
  stat : string -> result node
}.

(** What a run of [main] leaves: the file system calls made, the messages
    printed, one for each call of [console.log] (on [stdout]) and of
    [console.error] (on [stderr]), and the exit status.  A message is the
    text passed to the call; it may hold line breaks. *)
Record outcome : Type := {
  calls : list fs_call;
  stdout : list string;
  stderr : list string;
  exit_code : nat
}.

Definition message_of (e : exn) : string :=
  match e with
  | Error message => message
  | TypeError message => message
  end.

(** [!arg] for an argument that may be absent. *)
Definition missing (arg : option string) : bool :=
  match arg with
  | None => true
  | Some s => String.eqb s EmptyString
  end.

Definition usage (env : environment) (argv : list string) : string :=
  let argv1 :=
    if missing (nth_error argv 1) then "copy-replace.mjs"
    else relative_to_cwd env (nth 1 argv EmptyString) in
  "Usage: " ++ argv0 env ++ " " ++ argv1 ++ " <source> <json-file> <target>".

(** The [catch] branch. *)
Definition failed (made : list fs_call) (e : exn) : outcome :=
  {| calls := made; stdout := []; stderr := ["Error: " ++ message_of e]; exit_code := 1 |}.

(** [main()], for the whole of [process.argv]. *)
Definition main (env : environment) (argv : list string) : outcome :=
  let args := skipn 2 argv in
  let source := nth_error args 0 in
  let jsonFile := nth_error args 1 in
  let target := nth_error args 2 in
  if (missing source || missing jsonFile || missing target)%bool
  then {| calls := []; stdout := []; stderr := [usage env argv]; exit_code := 1 |}
  else
    let source := nth 0 args EmptyString in
    let jsonFile := nth 1 args EmptyString in
    let target := nth 2 args EmptyString in
    match read_json env jsonFile with
    | Throw e => failed [] e
    | Ok substitutions =>
        match stat env (resolve env source) with
        | Throw e => failed [] e
        | Ok n =>
            match copyAndSubstitute n (resolve env source) (resolve env target)
                    substitutions with
            | (made, Some e) => failed made e
            | (made, None) =>
                {| calls := made;
                   stdout := ["Copied " ++ source ++ " to " ++ target
                              ++ " with substitution defined by " ++ jsonFile ++ "."];
                   stderr := [];
                   exit_code := 0 |}
            end
        end
    end.

(** ** Reference definitions the properties are stated with *)

(** *** Path lookup *)

(** The lookup as the specification words it: the path is followed through
    mappings only, by their own keys. *)
Fixpoint lookup_mapping (j : json) (segments : list string) : option json :=
  match segments with
  | [] => Some j
  | key :: rest =>
      match j with
      | JObj props =>
          match assoc key props with
          | Some child => lookup_mapping child rest
          | None => None
          end
      | _ => None
      end
  end.

(** The own properties of an array, as data. *)
Definition array_own_json (elems : list json) (key : string) : option json :=
  if String.eqb key "length" then Some (JNum (Z.of_nat (List.length elems)))
  else match array_index key with
       | Some i => nth_error elems i
       | None => None
       end.

(** The path followed through the own properties of objects and of arrays. *)
Fixpoint lookup_own (j : json) (segments : list string) : option json :=
  match segments with
  | [] => Some j
  | key :: rest =>
      match j with
      | JObj props =>
          match assoc key props with
          | Some child => lookup_own child rest
          | None => None
          end
      | JArr elems =>
          match array_own_json elems key with
          | Some child => lookup_own child rest
          | None => None
          end
      | _ => None
      end
  end.

(** The values [get] descends into: the guard of its callback. *)
Definition descends (acc : value) : bool :=
  (truthy acc && js_type_eqb (typeof acc) TObject)%bool.

(** The values on which [key in acc] throws a [TypeError]: everything that
    is not an object. *)
Definition in_throws (acc : value) : bool :=
  match acc with
  | VUndefined => true
  | VJson JNull => true
  | VJson (JBool _) => true
  | VJson (JNum _) => true
  | VJson (JStr _) => true
  | _ => false
  end.

(** Decimal numerals are made of digits. *)
Fixpoint all_digits (s : string) : bool :=
  match s with
  | EmptyString => true
  | String c s' => (is_digit c && all_digits s')%bool
  end.

Definition starts_with_digit (s : string) : bool :=
  match s with
  | EmptyString => false
  | String c _ => is_digit c
  end.

(** The property names an object finds on its prototype chain although it
    has no such property of its own, and those an array finds. *)
Definition object_inherits (key : string) : bool :=
  (String.eqb key "__proto__" || String.eqb key "constructor"
   || mem_string key Object_prototype_methods)%bool.

Definition array_inherits (key : string) : bool :=
  (object_inherits key || mem_string key Array_prototype_methods)%bool.

(** The outcome of following a path through own properties: the leaf; or
    [Absent], when the value reached is no object or array, or has no
    property of that name at all; or [Inherited], when the name is none of
    its own properties but one that the value reached inherits. *)
Inductive lookup_outcome : Type :=
  | Found (leaf : json)
  | Absent
  | Inherited.

Fixpoint lookup_path (j : json) (segments : list string) : lookup_outcome :=
  match segments with
  | [] => Found j
  | key :: rest =>
      match j with
      | JObj props =>
          match assoc key props with
          | Some child => lookup_path child rest
          | None => if object_inherits key then Inherited else Absent
          end
      | JArr elems =>
          match array_own_json elems key with
          | Some child => lookup_path child rest
          | None => if array_inherits key then Inherited else Absent
          end
      | _ => Absent
      end
  end.

Definition map_tree : json :=
  JObj [("map", JObj [("zoom", JNum 3)]); ("layers", JArr [JStr "roads"; JStr "rivers"])].

(** *** Modifiers and conversions *)

(** The modifier pipeline as the specification words it: the tokens are
    taken in order, [json] takes the next token with it when that token
    parses as an integer, and a token that is not [json] acts on strings
    only. *)
Fixpoint modifier_pipeline (v : value) (modifiers : list string) : value :=
  match modifiers with
  | [] => v
  | modifier :: rest =>
      if String.eqb modifier "json"
      then match rest with
           | next :: rest' =>
               match parseInt next with
               | Some width => modifier_pipeline (JSON_stringify v width) rest'
               | None => modifier_pipeline (JSON_stringify v 2) rest
               end
           | [] => modifier_pipeline (JSON_stringify v 2) rest
           end
      else modifier_pipeline (other_modifier modifier v) rest
  end.

(** The values that are neither [undefined] nor an object: what a modifier
    turns into such a value again. *)
Definition is_primitive (v : value) : bool :=
  match v with
  | VJson JNull | VJson (JBool _) | VJson (JNum _) | VJson (JStr _) => true
  | _ => false
  end.

Definition is_string (j : json) : bool :=
  match j with JStr _ => true | _ => false end.

(** The string an element contributes to the [join] of its array. *)
Definition element_string (e : json) : result string :=
  match e with
  | JNull => Ok EmptyString
  | _ => ToString_json e
  end.

(** The strings of the elements of an array, in order. *)
Fixpoint elements_strings (l : list json) : result (list string) :=
  match l with
  | [] => Ok []
  | e :: l' =>
      s <- element_string e ;;
      ss <- elements_strings l' ;;
      Ok (s :: ss)
  end.

(** Induction on data, with the hypothesis for every element of an array
    and every property of an object. *)
Fixpoint json_nested_ind (P : json -> Prop)
    (Hnull : P JNull) (Hbool : forall b, P (JBool b)) (Hnum : forall n, P (JNum n))
    (Hstr : forall s, P (JStr s))
    (Harr : forall elems, Forall P elems -> P (JArr elems))
    (Hobj : forall props, Forall (fun kv => P (snd kv)) props -> P (JObj props))
    (j : json) : P j :=
  match j with
  | JNull => Hnull
  | JBool b => Hbool b
  | JNum n => Hnum n
  | JStr s => Hstr s
  | JArr elems =>
      Harr elems
        ((fix all (l : list json) : Forall P l :=
            match l with
            | [] => Forall_nil P
            | x :: l' =>
                Forall_cons x (json_nested_ind P Hnull Hbool Hnum Hstr Harr Hobj x) (all l')
            end) elems)
  | JObj props =>
      Hobj props
        ((fix all (l : list (string * json)) : Forall (fun kv => P (snd kv)) l :=
            match l with
            | [] => Forall_nil _
            | kv :: l' =>
                Forall_cons kv
                  (json_nested_ind P Hnull Hbool Hnum Hstr Harr Hobj (snd kv)) (all l')
            end) props)
  end.

(** Text made of ASCII characters only. *)
Fixpoint ascii_text (s : string) : bool :=
  match s with
  | EmptyString => true
  | String c s' => (Nat.ltb (nat_of_ascii c) 128 && ascii_text s')%bool
  end.

(** *** Default text *)

(** The default text as the documentation words it: everything after the
    first ['='], trimmed; nothing when there is no ['=']. *)
Definition default_after_first_equals (expr : string) : option string :=
  match span_not "=" expr with
  | (_, String _ after) => Some (trim after)
  | (_, EmptyString) => None
  end.

(** *** Template pass *)

Definition left_brace : ascii := "{"%char.
Definition right_brace : ascii := "}"%char.

(** The content cut at the matches of the pattern: the characters outside
    the matched spans, one by one, and the matched spans with their
    expression. *)
Inductive piece : Type :=
  | Literal (c : ascii)
  | Occurrence (fullMatch expr : string).

Fixpoint pieces (skip : nat) (content : string) : list piece :=
  match content with
  | EmptyString => []
  | String c content' =>
      match skip with
      | S k => pieces k content'
      | O =>
          match match_braces content with
          | Some m => Occurrence (fst m) (snd m) :: pieces (String.length (fst m) - 1) content'
          | None => Literal c :: pieces 0 content'
          end
      end
  end.

Definition piece_text (p : piece) : string :=
  match p with
  | Literal c => String c EmptyString
  | Occurrence fullMatch _ => fullMatch
  end.

Fixpoint concat_strings (l : list string) : string :=
  match l with
  | [] => EmptyString
  | s :: l' => s ++ concat_strings l'
  end.

(** The matches among the pieces. *)
Fixpoint occurrences (l : list piece) : list (string * string) :=
  match l with
  | [] => []
  | Literal _ :: l' => occurrences l'
  | Occurrence fullMatch expr :: l' => (fullMatch, expr) :: occurrences l'
  end.

(** The output as the specification words it: the original content in which
    each matched span is replaced, where it stands, by its resolved value. *)
Fixpoint replace_in_place (substitutions : value) (source : string) (l : list piece)
    : result string :=
  match l with
  | [] => Ok EmptyString
  | Literal c :: l' =>
      t <- replace_in_place substitutions source l' ;;
      Ok (String c t)
  | Occurrence _ expr :: l' =>
      r <- resolveExpression expr substitutions source ;;
      t <- replace_in_place substitutions source l' ;;
      Ok (r ++ t)
  end.

Definition substitute_in_place (substitutions : value) (source content : string)
    : result string :=
  replace_in_place substitutions source (pieces 0 content).

(** No ['{'] outside the matched spans, and none in a matched span after its
    opening [{{]. *)
Definition brace_free_piece (p : piece) : bool :=
  match p with
  | Literal c => negb (Ascii.eqb c left_brace)
  | Occurrence fullMatch _ => negb (mem_char left_brace (drop 2 fullMatch))
  end.

Definition brace_free (content : string) : bool :=
  forallb brace_free_piece (pieces 0 content).

(** [s.split(f).join(r)] *)
Definition replace_all (f r s : string) : string := join r (split f s).

(** A matched text without ['{'] after its opening braces: [{{], a body
    that is not empty and holds no brace, and [}}]. *)
Definition pattern_text (f : string) : Prop :=
  exists body,
    f = "{{" ++ body ++ "}}" /\ body <> EmptyString
    /\ mem_char right_brace body = false /\ mem_char left_brace body = false.

(** A text without ['{']. *)
Definition plain_text (t : string) : Prop := mem_char left_brace t = false.

Definition ok_text (t : string) : Prop := plain_text t \/ pattern_text t.

(** One replacement seen on a text that is replaced as a whole or not at
    all. *)
Definition replace_text (rep : replacement) (t : string) : string :=
  if String.eqb t (find rep) then replace rep else t.

(** The text a whole text ends as: the value of the first replacement that
    searches it. *)
Fixpoint final_text (replacements : list replacement) (t : string) : string :=
  match replacements with
  | [] => t
  | rep :: rest => if String.eqb t (find rep) then replace rep else final_text rest t
  end.

Definition good_replacement (rep : replacement) : Prop :=
  pattern_text (find rep) /\ plain_text (replace rep).

(** What a match of the pattern looks like. *)
Definition match_shape (m : string * string) : Prop :=
  exists body,
    fst m = "{{" ++ body ++ "}}" /\ body <> EmptyString
    /\ mem_char right_brace body = false /\ snd m = captured body.

(** A replacement that comes from a match: its text, and the resolved value
    of its expression. *)
Definition resolves_to (substitutions : value) (source : string)
    (m : string * string) (rep : replacement) : Prop :=
  find rep = fst m /\ resolveExpression (snd m) substitutions source = Ok (replace rep).

(** *** Example data *)

Definition empty_tree : value := VJson (JObj []).

Definition object_json : json := JObj [("a", JNum 1)].

Definition C1_tree : value :=
  VJson (JObj [("a", JStr EmptyString); ("b", JStr "x"); ("n", JNum 0)]).

Definition inherited_tree : value := VJson (JObj [("b", JStr "x")]).

Definition C2_tree : json :=
  JObj [("user", JObj [("name", JStr "Ann")]); ("tags", JArr [JStr "x"])].

Definition C6_tree : value :=
  VJson (JObj [("user", JObj [("name", JStr "Ann"); ("age", JNum 30)])]).

Definition C7_tree : value :=
  VJson (JObj [("app", JObj [("toString", JStr "x"); ("name", JStr "demo")])]).

Definition C8_tree : value :=
  VJson (JObj [("a", JStr "{{b}}"); ("b", JStr "X"); ("c", JStr "}} and {")]).

Definition C10_tree : value :=
  VJson (JObj [("cfg", JObj [("toString", JStr "x")]);
               ("user", JObj [("name", JStr "Ann")]);
               ("tags", JArr [JStr "a"; JNull; JNum 2]);
               ("nothing", JNull)]).

Definition strings_template : string :=
  "<string name=" ++ double_quote ++ "app_name" ++ double_quote ++ ">{{ app.name }}</string>".

Definition strings_tree : value := VJson (JObj [("app", JObj [("name", JStr "Demo")])]).

Definition config_tree : value :=
  VJson (JObj [("app", JObj [("name", JStr "Demo"); ("toString", JStr "own")]);
               ("count", JNum 3)]).

(** The five modifier tokens [applyModifiers] knows. *)
Definition known_modifier (modifier : string) : bool :=
  mem_string modifier ["json"; "lower"; "upper"; "_"; "-"].

Definition is_string_value (v : value) : bool :=
  match v with VJson (JStr _) => true | _ => false end.

(** The loop over the entries of a directory. *)
Fixpoint copy_entries (entries : list (string * node)) (source target : string)
    (substitutions : value) : run :=
  match entries with
  | [] => done []
  | (file, child) :: rest =>
      and_then
        (copyAndSubstitute child (path_join source file) (path_join target file)
           substitutions)
        (copy_entries rest source target substitutions)
  end.

(** Induction on a source tree, with the hypothesis for every entry of a
    directory. *)
Fixpoint node_nested_ind (P : node -> Prop)
    (Hfile : forall content, P (File content))
    (Hdir : forall entries, Forall (fun entry => P (snd entry)) entries ->
                            P (Directory entries))
    (Hspecial : P Special) (n : node) : P n :=
  match n with
  | File content => Hfile content
  | Directory entries =>
      Hdir entries
        ((fix all (l : list (string * node)) : Forall (fun entry => P (snd entry)) l :=
            match l with
            | [] => Forall_nil _
            | entry :: l' =>
                Forall_cons entry (node_nested_ind P Hfile Hdir Hspecial (snd entry)) (all l')
            end) entries)
  | Special => Hspecial
  end.

(** A name as [fs.readdir] lists it: not empty, without ['/'], and neither
    [.] nor [..]. *)
Definition entry_name (name : string) : bool :=
  (negb (String.eqb name EmptyString) && negb (mem_char slash name)
   && negb (String.eqb name ".") && negb (String.eqb name ".."))%bool.

(** A path as [path.resolve] returns it, absolute and normalized: [/], or
    names, each after one ['/']. *)
Definition resolved_path (p : string) : bool :=
  match p with
  | EmptyString => false
  | String c rest =>
      (Ascii.eqb c slash
       && (String.eqb rest EmptyString || forallb entry_name (split "/" rest)))%bool
  end.

(** Every entry below [n], at any depth, has a name as [fs.readdir] lists
    it. *)
Fixpoint entry_names (n : node) : bool :=
  match n with
  | Directory entries =>
      (fix each (l : list (string * node)) : bool :=
         match l with
         | [] => true
         | (name, child) :: l' => (entry_name name && entry_names child && each l')%bool
         end) entries
  | File _ => true
  | Special => true
  end.

(** The path of a directory with its closing ['/']. *)
Definition directory_prefix (dir : string) : string := path_join dir EmptyString.

(** A call that writes or copies a file does so under [prefix]. *)
Definition writes_under (prefix : string) (call : fs_call) : Prop :=
  match call with
  | mkdir _ => True
  | writeFile path _ => startsWith prefix path = true
  | copyFile _ dst => startsWith prefix dst = true
  end.

Definition sample_tree : node :=
  Directory [("strings.xml.tmpl", File "{{ app.name }}");
             ("values", Directory [("broken.tmpl", File "{{ app.title }}");
                                   ("late.txt", File "never copied")]);
             ("readme.txt", File "plain")].

Definition sample_environment : environment :=
  {| argv0 := "node";
     relative_to_cwd := fun p => p;
     resolve := fun p => "/repo/" ++ p;
     read_json := fun _ => Ok config_tree;
     stat := fun _ => Ok sample_tree |}.

(** * Properties *)

(** The 256 characters, one by one. *)
Ltac ascii_cases c := destruct c as [[|] [|] [|] [|] [|] [|] [|] [|]].

(** ** Strings *)

Lemma append_assoc (a b c : string) : (a ++ b) ++ c = a ++ (b ++ c).
Proof. induction a as [|x a IH]; simpl; [reflexivity | now rewrite IH]. Qed.

Lemma append_empty_r (a : string) : a ++ EmptyString = a.
Proof. induction a as [|x a IH]; simpl; [reflexivity | now rewrite IH]. Qed.

Lemma length_append (a b : string) :
  String.length (a ++ b) = String.length a + String.length b.
Proof. induction a as [|x a IH]; simpl; [reflexivity | now rewrite IH]. Qed.

Lemma split_from_nonempty (sep : string) (skip : nat) (s : string) :
  split_from sep skip s <> [].
Proof.
  revert skip; induction s as [|c s IH]; intros skip; simpl.
  - discriminate.
  - destruct skip as [|k].
    + destruct (startsWith sep (String c s)); [discriminate|].
      destruct (split_from sep 0 s); discriminate.
    + apply IH.
Qed.

Lemma split_char_absent (c : ascii) (s : string) :
  mem_char c s = false -> split (String c EmptyString) s = [s].
Proof.
  unfold split. induction s as [|a s IH]; simpl; intros H.
  - reflexivity.
  - apply orb_false_iff in H as [Hac Hs].
    rewrite Ascii.eqb_sym, Hac. simpl.
    rewrite (IH Hs). reflexivity.
Qed.

Lemma split_char_first (c : ascii) (a s : string) :
  mem_char c a = false ->
  split (String c EmptyString) (a ++ String c s) = a :: split (String c EmptyString) s.
Proof.
  unfold split. induction a as [|x a IH]; simpl; intros H.
  - rewrite Ascii.eqb_refl. simpl. destruct s; reflexivity.
  - apply orb_false_iff in H as [Hxc Ha].
    rewrite Ascii.eqb_sym, Hxc. simpl.
    rewrite (IH Ha). reflexivity.
Qed.

Lemma split_char_append (c : ascii) (p q : string) :
  split (String c EmptyString) (p ++ String c q)
  = (split (String c EmptyString) p ++ split (String c EmptyString) q)%list.
Proof.
  unfold split. induction p as [|x p IH].
  - cbn [append split_from startsWith]. rewrite Ascii.eqb_refl. reflexivity.
  - cbn [append split_from startsWith].
    change (String.length (String c EmptyString) - 1) with 0. rewrite IH.
    destruct (Ascii.eqb c x); cbn [andb]; [reflexivity|].
    destruct (split_from (String c EmptyString) 0 p) as [|hd tl] eqn:E;
      [now apply split_from_nonempty in E | reflexivity].
Qed.

(** ** [get] *)

Lemma get_step_undefined (key : string) : get_step VUndefined key = VUndefined.
Proof. reflexivity. Qed.

Lemma fold_get_step_undefined (segments : list string) :
  fold_left get_step segments VUndefined = VUndefined.
Proof. induction segments as [|k l IH]; simpl; [reflexivity | exact IH]. Qed.

(** The guard keeps [in] away from the values it throws on. *)
Lemma descends_in_defined (acc : value) : descends acc = true -> in_throws acc = false.
Proof.
  destruct acc as [|j| | |]; try reflexivity; try discriminate.
  destruct j; try reflexivity; unfold descends; simpl;
    rewrite ?andb_false_r; discriminate.
Qed.

Lemma get_step_not_descended (acc : value) (key : string) :
  descends acc = false -> get_step acc key = VUndefined.
Proof. unfold get_step, descends. intros ->. reflexivity. Qed.

Lemma get_not_descended (acc : value) (path : string) :
  descends acc = false -> get acc path = VUndefined.
Proof.
  intros H. unfold get.
  destruct (split dot path) as [|k l] eqn:E.
  - unfold dot, split in E. now apply split_from_nonempty in E.
  - simpl. rewrite (get_step_not_descended _ _ H). apply fold_get_step_undefined.
Qed.

Lemma array_own_json_value (elems : list json) (key : string) :
  array_own elems key = option_map VJson (array_own_json elems key).
Proof.
  unfold array_own, array_own_json.
  destruct (String.eqb key "length"); [reflexivity|].
  destruct (array_index key); reflexivity.
Qed.

Lemma not_inherited_Object (proto : value) (key : string) :
  inherited_name key = false -> Object_prototype_get proto key = None.
Proof.
  unfold inherited_name, Object_prototype_get. intros H.
  apply orb_false_iff in H as [H _].
  apply orb_false_iff in H as [H Hm].
  apply orb_false_iff in H as [Hp Hc].
  now rewrite Hp, Hc, Hm.
Qed.

Lemma not_inherited_Array (proto : value) (key : string) :
  inherited_name key = false -> Array_prototype_get proto key = None.
Proof.
  intros H. unfold Array_prototype_get.
  rewrite (not_inherited_Object _ _ H).
  unfold inherited_name in H.
  apply orb_false_iff in H as [H Ha].
  apply orb_false_iff in H as [H _].
  apply orb_false_iff in H as [_ Hc].
  now rewrite Hc, Ha.
Qed.

Lemma get_step_own_object (props : list (string * json)) (key : string) (child : json) :
  assoc key props = Some child -> get_step (VJson (JObj props)) key = VJson child.
Proof. unfold get_step; simpl. now intros ->. Qed.

Lemma get_step_own_array (elems : list json) (key : string) (child : json) :
  array_own_json elems key = Some child -> get_step (VJson (JArr elems)) key = VJson child.
Proof. unfold get_step; simpl. rewrite array_own_json_value. now intros ->. Qed.

Lemma fold_get_step_own (segments : list string) :
  forall (j leaf : json),
    lookup_own j segments = Some leaf ->
    fold_left get_step segments (VJson j) = VJson leaf.
Proof.
  induction segments as [|key rest IH]; intros j leaf H; simpl in *.
  - now injection H as ->.
  - destruct j as [| | | |elems|props]; try discriminate.
    + destruct (array_own_json elems key) as [child|] eqn:E; [|discriminate].
      rewrite (get_step_own_array _ _ _ E). now apply IH.
    + destruct (assoc key props) as [child|] eqn:E; [|discriminate].
      rewrite (get_step_own_object _ _ _ E). now apply IH.
Qed.

Lemma fold_get_step_absent (segments : list string) :
  forall (j : json),
    forallb (fun key => negb (inherited_name key)) segments = true ->
    lookup_own j segments = None ->
    fold_left get_step segments (VJson j) = VUndefined.
Proof.
  induction segments as [|key rest IH]; intros j Hn H; simpl in *.
  - discriminate.
  - apply andb_true_iff in Hn as [Hk Hrest].
    apply negb_true_iff in Hk.
    destruct j as [|b|n|s|elems|props];
      try (rewrite get_step_not_descended;
           [apply fold_get_step_undefined
           | unfold descends; simpl; rewrite ?andb_false_r; reflexivity]).
    + destruct (array_own_json elems key) as [child|] eqn:E.
      * rewrite (get_step_own_array _ _ _ E). now apply IH.
      * unfold get_step; simpl. rewrite array_own_json_value, E; simpl.
        rewrite (not_inherited_Array _ _ Hk). apply fold_get_step_undefined.
    + destruct (assoc key props) as [child|] eqn:E.
      * rewrite (get_step_own_object _ _ _ E). now apply IH.
      * unfold get_step; simpl. rewrite E.
        rewrite (not_inherited_Object _ _ Hk). apply fold_get_step_undefined.
Qed.

Lemma string_of_uint_digits (d : Decimal.uint) :
  all_digits (NilEmpty.string_of_uint d) = true.
Proof. induction d; simpl; auto. Qed.

Lemma decimal_nat_digits (n : nat) : all_digits (decimal_nat n) = true.
Proof.
  unfold decimal_nat, NilZero.string_of_uint.
  destruct (Nat.to_uint n); try reflexivity; apply string_of_uint_digits.
Qed.

Lemma decimal_nat_nonempty (n : nat) : decimal_nat n <> EmptyString.
Proof.
  unfold decimal_nat, NilZero.string_of_uint.
  destruct (Nat.to_uint n); discriminate.
Qed.

Lemma digit_not (c a : ascii) :
  is_digit a = false -> is_digit c = true -> Ascii.eqb c a = false.
Proof.
  intros Ha Hc. destruct (Ascii.eqb c a) eqn:E; [|reflexivity].
  apply Ascii.eqb_eq in E. subst. congruence.
Qed.

Lemma digits_without (a : ascii) (s : string) :
  is_digit a = false -> all_digits s = true -> mem_char a s = false.
Proof.
  intros Ha. induction s as [|c s IH]; simpl; [reflexivity|].
  intros H. apply andb_true_iff in H as [Hc Hs].
  rewrite (digit_not c a Ha Hc), (IH Hs). reflexivity.
Qed.

Lemma digits_start (s : string) :
  s <> EmptyString -> all_digits s = true -> starts_with_digit s = true.
Proof.
  destruct s as [|c s]; [congruence|]. simpl. intros _ H.
  now apply andb_true_iff in H as [Hc _].
Qed.

Lemma eqb_digit_start (name key : string) :
  starts_with_digit name = false -> starts_with_digit key = true ->
  String.eqb name key = false.
Proof.
  intros Hn Hk. destruct (String.eqb name key) eqn:E; [|reflexivity].
  apply String.eqb_eq in E. subst. congruence.
Qed.

Lemma mem_string_digit_start (names : list string) (key : string) :
  forallb (fun name => negb (starts_with_digit name)) names = true ->
  starts_with_digit key = true ->
  mem_string key names = false.
Proof.
  intros Hn Hk. induction names as [|name names IH]; simpl in *; [reflexivity|].
  apply andb_true_iff in Hn as [H1 H2]. apply negb_true_iff in H1.
  rewrite (eqb_digit_start _ _ H1 Hk), (IH H2). reflexivity.
Qed.

Lemma digit_start_not_inherited (key : string) :
  starts_with_digit key = true -> inherited_name key = false.
Proof.
  intros Hk. unfold inherited_name.
  rewrite (String.eqb_sym key "__proto__"), (String.eqb_sym key "constructor").
  rewrite (eqb_digit_start "__proto__" key), (eqb_digit_start "constructor" key)
    by (reflexivity || assumption).
  rewrite !mem_string_digit_start by (reflexivity || assumption).
  reflexivity.
Qed.

Lemma array_index_decimal (i : nat) : array_index (decimal_nat i) = Some i.
Proof.
  unfold array_index, decimal_nat.
  rewrite NilZero.usu.
  - rewrite DecimalNat.Unsigned.of_to, String.eqb_refl. reflexivity.
  - intros E. pose proof (DecimalNat.Unsigned.of_to i) as H.
    rewrite E in H. simpl in H. subst i. discriminate.
Qed.

Lemma array_own_json_index (elems : list json) (i : nat) :
  array_own_json elems (decimal_nat i) = nth_error elems i.
Proof.
  unfold array_own_json.
  rewrite String.eqb_sym, (eqb_digit_start "length").
  - now rewrite array_index_decimal.
  - reflexivity.
  - apply digits_start; [apply decimal_nat_nonempty | apply decimal_nat_digits].
Qed.

Lemma split_dot_decimal (i : nat) : split dot (decimal_nat i) = [decimal_nat i].
Proof.
  apply split_char_absent, digits_without; [reflexivity | apply decimal_nat_digits].
Qed.

(** A name inherited from [Object.prototype] is found by [in] although the
    data has no such key: the lookup returns the built-in function.  Through
    the [json] modifier that function serialises to [undefined], and the
    default of the expression is used. *)
Example inherited_name_is_found :
  get empty_tree "toString" = VFunction "toString"
  /\ get empty_tree "constructor.name" = VUndefined
  /\ resolveExpression "toString:json = d" empty_tree "strings.xml.tmpl" = Ok "d".
Proof. repeat split. Qed.

(** ** Claims about [get] *)

Lemma object_not_inherited (proto : value) (key : string) :
  object_inherits key = false -> Object_prototype_get proto key = None.
Proof.
  unfold object_inherits, Object_prototype_get. intros H.
  apply orb_false_iff in H as [H Hm].
  apply orb_false_iff in H as [Hp Hc].
  now rewrite Hp, Hc, Hm.
Qed.

Lemma array_not_inherited (proto : value) (key : string) :
  array_inherits key = false -> Array_prototype_get proto key = None.
Proof.
  unfold array_inherits. intros H. apply orb_false_iff in H as [Ho Ha].
  unfold Array_prototype_get. rewrite (object_not_inherited _ _ Ho), Ha.
  unfold object_inherits in Ho.
  apply orb_false_iff in Ho as [Ho _]. apply orb_false_iff in Ho as [_ Hc].
  now rewrite Hc.
Qed.

Lemma fold_get_step_found (segments : list string) :
  forall (j leaf : json),
    lookup_path j segments = Found leaf ->
    fold_left get_step segments (VJson j) = VJson leaf.
Proof.
  induction segments as [|key rest IH]; intros j leaf H; cbn [lookup_path fold_left] in *.
  - now injection H as ->.
  - destruct j as [| | | |elems|props]; try discriminate.
    + destruct (array_own_json elems key) as [child|] eqn:E.
      * rewrite (get_step_own_array _ _ _ E). now apply IH.
      * destruct (array_inherits key); discriminate.
    + destruct (assoc key props) as [child|] eqn:E.
      * rewrite (get_step_own_object _ _ _ E). now apply IH.
      * destruct (object_inherits key); discriminate.
Qed.

Lemma fold_get_step_Absent (segments : list string) :
  forall (j : json),
    lookup_path j segments = Absent ->
    fold_left get_step segments (VJson j) = VUndefined.
Proof.
  induction segments as [|key rest IH]; intros j H; cbn [lookup_path fold_left] in *.
  - discriminate.
  - destruct j as [|b|n|s|elems|props];
      try (rewrite get_step_not_descended;
           [apply fold_get_step_undefined
           | unfold descends; simpl; rewrite ?andb_false_r; reflexivity]).
    + destruct (array_own_json elems key) as [child|] eqn:E.
      * rewrite (get_step_own_array _ _ _ E). now apply IH.
      * destruct (array_inherits key) eqn:Hi; [discriminate|].
        unfold get_step; simpl. rewrite array_own_json_value, E; simpl.
        rewrite (array_not_inherited _ _ Hi). apply fold_get_step_undefined.
    + destruct (assoc key props) as [child|] eqn:E.
      * rewrite (get_step_own_object _ _ _ E). now apply IH.
      * destruct (object_inherits key) eqn:Hi; [discriminate|].
        unfold get_step; simpl. rewrite E.
        rewrite (object_not_inherited _ _ Hi). apply fold_get_step_undefined.
Qed.

(** Looking up [p.q] is looking up [q] in what [p] gives. *)
Lemma get_dot (obj : value) (p q : string) :
  get obj (p ++ String "." q) = get (get obj p) q.
Proof. unfold get, dot. rewrite split_char_append. apply fold_left_app. Qed.

(** C2 (amended).  For every data tree [D] and path [P]: when every segment
    of [P] names an own property along a chain of objects and arrays (a key
    of an object; an index or [length] of an array), [get] returns the leaf;
    when, somewhere along the path, the value reached is a string, a number,
    a boolean or [null], or is an object or array that has no property of
    the segment's name, neither of its own nor inherited from its built-in
    prototype, [get] returns [undefined].  [get] is a total function, and
    its guard keeps [in] away from the values on which it throws. *)
Theorem C2_get_follows_own_properties (D : json) (P : string) :
  (forall leaf, lookup_path D (split dot P) = Found leaf -> get (VJson D) P = VJson leaf)
  /\ (lookup_path D (split dot P) = Absent -> get (VJson D) P = VUndefined)
  /\ (forall acc, descends acc = true -> in_throws acc = false).
Proof.
  unfold get. split; [|split].
  - intros leaf H. now apply fold_get_step_found.
  - intros H. now apply fold_get_step_Absent.
  - exact descends_in_defined.
Qed.

Lemma C2_get_follows_own_properties_witness :
  get (VJson map_tree) "map.zoom" = VJson (JNum 3)
  /\ get (VJson map_tree) "layers.1" = VJson (JStr "rivers")
  /\ get (VJson map_tree) "map.center" = VUndefined
  /\ get (VJson map_tree) "map.zoom.level" = VUndefined
  /\ get (VJson map_tree) "layers.2" = VUndefined.
Proof.
  split; [|split; [|split; [|split]]].
  - apply (proj1 (C2_get_follows_own_properties map_tree "map.zoom")). reflexivity.
  - apply (proj1 (C2_get_follows_own_properties map_tree "layers.1")). reflexivity.
  - apply (proj1 (proj2 (C2_get_follows_own_properties map_tree "map.center"))).
    reflexivity.
  - apply (proj1 (proj2 (C2_get_follows_own_properties map_tree "map.zoom.level"))).
    reflexivity.
  - apply (proj1 (proj2 (C2_get_follows_own_properties map_tree "layers.2"))).
    reflexivity.
Defined.

(** C2 as stated fails: the array under [tags] is not a mapping, so the
    path [tags.0] has an intermediate non-mapping, yet [get] returns the
    element instead of [undefined]. *)
Lemma C2_counterexample_array_is_descended :
  lookup_mapping C2_tree (split dot "tags.0") = None
  /\ get (VJson C2_tree) "tags.0" = VJson (JStr "x")
  /\ get (VJson C2_tree) "tags.0" <> VUndefined.
Proof. repeat split; try reflexivity. discriminate. Qed.

Lemma primitive_not_descended (v : value) :
  is_primitive v = true \/ v = VUndefined -> descends v = false.
Proof.
  intros [H | ->]; [|reflexivity].
  destruct v as [|j| | |]; try discriminate.
  destruct j; try discriminate; unfold descends; simpl; rewrite ?andb_false_r; reflexivity.
Qed.

Lemma get_array_index (A : list json) (i : nat) :
  get (VJson (JArr A)) (decimal_nat i)
  = match nth_error A i with Some e => VJson e | None => VUndefined end.
Proof.
  unfold get. rewrite split_dot_decimal.
  destruct (nth_error A i) as [e|] eqn:H.
  - apply fold_get_step_own. simpl. now rewrite array_own_json_index, H.
  - apply fold_get_step_absent.
    + simpl. rewrite digit_start_not_inherited; [reflexivity|].
      apply digits_start; [apply decimal_nat_nonempty | apply decimal_nat_digits].
    + simpl. now rewrite array_own_json_index, H.
Qed.

(** C3 (amended).  [get] descends into objects and arrays, the values whose
    [typeof] is ['object'] and that are not [null], and into nothing else:
    whenever the value reached at some point of the path, the starting value
    included, is a string, a number, a boolean, [null] or [undefined], the
    lookup yields [undefined] for whatever follows.  An array is descended
    into wherever it is reached: a numeric segment gives the element at that
    index when there is one, and [undefined] when the index is out of
    range. *)
Theorem C3_get_descends_objects_and_arrays :
  (forall v, is_primitive v = true \/ v = VUndefined -> descends v = false)
  /\ (forall (acc : value) (P : string), descends acc = false -> get acc P = VUndefined)
  /\ (forall (obj : value) (p q : string),
        descends (get obj p) = false -> get obj (p ++ String "." q) = VUndefined)
  /\ (forall (A : list json) (i : nat),
        get (VJson (JArr A)) (decimal_nat i)
        = match nth_error A i with Some e => VJson e | None => VUndefined end)
  /\ (forall (obj : value) (p : string) (A : list json) (i : nat),
        get obj p = VJson (JArr A) ->
        get obj (p ++ String "." (decimal_nat i))
        = match nth_error A i with Some e => VJson e | None => VUndefined end).
Proof.
  split; [exact primitive_not_descended|].
  split; [exact get_not_descended|].
  split; [|split].
  - intros obj p q H. rewrite get_dot. now apply get_not_descended.
  - exact get_array_index.
  - intros obj p A i H. rewrite get_dot, H. apply get_array_index.
Qed.

Lemma C3_get_descends_objects_and_arrays_witness :
  get (VStr "text") "length" = VUndefined
  /\ get (VJson map_tree) "map.zoom.level" = VUndefined
  /\ get (VJson map_tree) "layers.1" = VJson (JStr "rivers")
  /\ get (VJson map_tree) "layers.2" = VUndefined.
Proof.
  destruct C3_get_descends_objects_and_arrays as [Hprim [Hstart [Hstep [_ Harray]]]].
  split; [|split; [|split]].
  - apply Hstart, Hprim. left. reflexivity.
  - apply (Hstep (VJson map_tree) "map.zoom" "level"), Hprim. left. reflexivity.
  - exact (Harray (VJson map_tree) "layers" [JStr "roads"; JStr "rivers"] 1 eq_refl).
  - exact (Harray (VJson map_tree) "layers" [JStr "roads"; JStr "rivers"] 2 eq_refl).
Defined.

(** C3 as stated fails: on the array [["x"]] the numeric segment [0] yields
    the element, not [undefined]. *)
Lemma C3_counterexample_array_index :
  get (VJson (JArr [JStr "x"])) "0" = VJson (JStr "x")
  /\ get (VJson (JArr [JStr "x"])) "0" <> VUndefined.
Proof. split; [reflexivity | discriminate]. Qed.

(** ** [applyModifiers] *)

Lemma nth_error_skipn_nil {A : Type} (l : list A) (i : nat) :
  nth_error l i = None -> skipn i l = [].
Proof.
  revert i; induction l as [|x l IH]; intros [|i]; simpl; try reflexivity.
  - discriminate.
  - apply IH.
Qed.

Lemma nth_error_skipn_cons {A : Type} (l : list A) (i : nat) (x : A) :
  nth_error l i = Some x -> skipn i l = x :: skipn (S i) l.
Proof.
  revert i; induction l as [|y l IH]; intros [|i]; simpl; try discriminate.
  - now intros [= ->].
  - intros H. now rewrite (IH i H).
Qed.

(** From index [i], with fuel for the tokens that are left, the loop
    computes the pipeline on the tokens from [i] on. *)
Lemma applyModifiers_from_pipeline (fuel : nat) :
  forall (modifiers : list string) (i : nat) (v : value),
    List.length modifiers - i <= fuel ->
    applyModifiers_from fuel modifiers i v = modifier_pipeline v (skipn i modifiers).
Proof.
  induction fuel as [|fuel IH]; intros modifiers i v Hfuel; cbn [applyModifiers_from].
  - rewrite skipn_all2 by lia. reflexivity.
  - destruct (nth_error modifiers i) as [modifier|] eqn:Ei.
    + rewrite (nth_error_skipn_cons _ _ _ Ei). cbn [modifier_pipeline].
      assert (Hi : i < List.length modifiers)
        by (apply nth_error_Some; congruence).
      destruct (String.eqb modifier "json").
      * replace (i + 1) with (S i) by lia.
        destruct (nth_error modifiers (S i)) as [next|] eqn:En.
        -- rewrite (nth_error_skipn_cons _ _ _ En).
           destruct (parseInt next) as [width|].
           ++ replace (i + 2) with (S (S i)) by lia. apply IH. lia.
           ++ rewrite <- (nth_error_skipn_cons _ _ _ En). apply IH. lia.
        -- rewrite IH by lia. now rewrite (nth_error_skipn_nil _ _ En).
      * replace (i + 1) with (S i) by lia. apply IH. lia.
    + now rewrite (nth_error_skipn_nil _ _ Ei).
Qed.

Lemma applyModifiers_pipeline (v : value) (modifiers : list string) :
  applyModifiers v modifiers = modifier_pipeline v modifiers.
Proof.
  unfold applyModifiers. rewrite applyModifiers_from_pipeline by lia. reflexivity.
Qed.

(** C5.  In [applyModifiers] the token [json] replaces the current value by
    [JSON.stringify(value, null, n)]: [n] is the integer the next token
    parses as, and then that token is consumed; otherwise [n] is 2 and the
    next token, if any, is applied as a modifier in its turn.  So the loop
    computes the pipeline of the specification, [obj:json:4] is
    [JSON.stringify(obj, null, 4)] and [obj:json] is
    [JSON.stringify(obj, null, 2)]. *)
Theorem C5_json_modifier_and_indent (v : value) (modifiers : list string) :
  applyModifiers v modifiers = modifier_pipeline v modifiers
  /\ (forall next rest n,
        parseInt next = Some n ->
        applyModifiers v ("json" :: next :: rest) = applyModifiers (JSON_stringify v n) rest)
  /\ (forall next rest,
        parseInt next = None ->
        applyModifiers v ("json" :: next :: rest)
        = applyModifiers (JSON_stringify v 2) (next :: rest))
  /\ applyModifiers v ["json"; "4"] = JSON_stringify v 4
  /\ applyModifiers v ["json"] = JSON_stringify v 2.
Proof.
  split; [apply applyModifiers_pipeline|].
  split; [|split; [|split; reflexivity]].
  - intros next rest n H. rewrite !applyModifiers_pipeline. simpl. now rewrite H.
  - intros next rest H. rewrite !applyModifiers_pipeline.
    change (modifier_pipeline v ("json" :: next :: rest))
      with (match parseInt next with
            | Some width => modifier_pipeline (JSON_stringify v width) rest
            | None => modifier_pipeline (JSON_stringify v 2) (next :: rest)
            end).
    now rewrite H.
Qed.

Lemma C5_json_modifier_and_indent_witness :
  applyModifiers (VJson object_json) ["json"; "4"; "upper"]
  = applyModifiers (JSON_stringify (VJson object_json) 4) ["upper"]
  /\ applyModifiers (VJson object_json) ["json"; "upper"]
     = applyModifiers (JSON_stringify (VJson object_json) 2) ["upper"].
Proof.
  split.
  - apply (proj1 (proj2 (C5_json_modifier_and_indent (VJson object_json) []))).
    reflexivity.
  - apply (proj1 (proj2 (proj2 (C5_json_modifier_and_indent (VJson object_json) [])))).
    reflexivity.
Defined.

(** The indentation [JSON.stringify] makes of its third argument: that many
    spaces from 1 to 10, ten above, none below 1. *)
Lemma gap_of_width (n : Z) :
  ((1 <= n <= 10)%Z -> gap_of n = repeat_string " " (Z.to_nat n))
  /\ ((10 <= n)%Z -> gap_of n = repeat_string " " 10)
  /\ ((n < 1)%Z -> gap_of n = EmptyString).
Proof.
  unfold gap_of. repeat split; intros H.
  - now rewrite Z.min_r by lia.
  - now rewrite Z.min_l by lia.
  - rewrite Z.min_r by lia. destruct n; try reflexivity; lia.
Qed.

(** The text [obj:json:4] produces for the object [{"a": 1}]: four spaces of
    indentation. *)
Example json_indent_4 :
  resolveExpression "obj:json:4" (VJson (JObj [("obj", object_json)])) "strings.xml.tmpl"
  = Ok ("{" ++ newline ++ "    " ++ quote "a" ++ ": 1" ++ newline ++ "}").
Proof. reflexivity. Qed.

Example json_indent_default :
  resolveExpression "obj:json" (VJson (JObj [("obj", object_json)])) "strings.xml.tmpl"
  = Ok ("{" ++ newline ++ "  " ++ quote "a" ++ ": 1" ++ newline ++ "}").
Proof. reflexivity. Qed.

(** ** The fallback chain *)

Lemma is_undefined_false (v : value) : v <> VUndefined -> is_undefined v = false.
Proof. destruct v; simpl; congruence. Qed.

Lemma is_undefined_true (v : value) : is_undefined v = true -> v = VUndefined.
Proof. destruct v; simpl; congruence. Qed.

Lemma resolve_fallbacks_first (substitutions : value) (before : list string)
    (candidate : string) (after : list string) :
  (forall f, In f before -> get substitutions (fallback_path f) = VUndefined) ->
  get substitutions (fallback_path candidate) <> VUndefined ->
  resolve_fallbacks substitutions (before ++ candidate :: after)%list
  = applyModifiers (get substitutions (fallback_path candidate))
      (fallback_modifiers candidate).
Proof.
  intros Hbefore Hfound.
  induction before as [|f before IH]; simpl.
  - now rewrite (is_undefined_false _ Hfound).
  - rewrite (Hbefore f (or_introl eq_refl)). simpl.
    apply IH. intros g Hg. apply Hbefore. now right.
Qed.

Lemma resolve_fallbacks_none (substitutions : value) (fallbacks : list string) :
  (forall f, In f fallbacks -> get substitutions (fallback_path f) = VUndefined) ->
  resolve_fallbacks substitutions fallbacks = VUndefined.
Proof.
  induction fallbacks as [|f l IH]; simpl; intros H; [reflexivity|].
  rewrite (H f (or_introl eq_refl)). simpl.
  apply IH. intros g Hg. apply H. now right.
Qed.

Lemma JSON_stringify_primitive (v : value) (space : Z) :
  is_primitive v = true -> is_primitive (JSON_stringify v space) = true.
Proof. destruct v as [|j| | |]; try discriminate. reflexivity. Qed.

Lemma other_modifier_primitive (modifier : string) (v : value) :
  is_primitive v = true -> is_primitive (other_modifier modifier v) = true.
Proof.
  destruct v as [|j| | |]; try discriminate. destruct j; try discriminate; reflexivity.
Qed.

Lemma applyModifiers_from_primitive (fuel : nat) :
  forall (modifiers : list string) (i : nat) (v : value),
    is_primitive v = true ->
    is_primitive (applyModifiers_from fuel modifiers i v) = true.
Proof.
  induction fuel as [|fuel IH]; intros modifiers i v Hv; simpl; [exact Hv|].
  destruct (nth_error modifiers i) as [modifier|]; [|exact Hv].
  destruct (String.eqb modifier "json").
  - destruct (match nth_error modifiers (i + 1) with
              | Some next => parseInt next
              | None => None
              end); apply IH; now apply JSON_stringify_primitive.
  - apply IH. now apply other_modifier_primitive.
Qed.

Lemma applyModifiers_primitive (v : value) (modifiers : list string) :
  is_primitive v = true -> is_primitive (applyModifiers v modifiers) = true.
Proof. apply applyModifiers_from_primitive. Qed.

Lemma primitive_defined (v : value) : is_primitive v = true -> is_undefined v = false.
Proof. destruct v; simpl; congruence. Qed.

Lemma primitive_converts (v : value) :
  is_primitive v = true -> exists s, String_ v = Ok s.
Proof.
  destruct v as [|j| | |]; try discriminate.
  destruct j as [|[|]| | | |]; try discriminate; intros _; simpl; eauto.
Qed.

Lemma resolveExpression_resolved (expr : string) (substitutions : value)
    (sourcePath : string) :
  resolve_fallbacks substitutions (fallbacks_of expr) <> VUndefined ->
  resolveExpression expr substitutions sourcePath
  = String_ (resolve_fallbacks substitutions (fallbacks_of expr)).
Proof.
  intros H. unfold resolveExpression. now rewrite (is_undefined_false _ H).
Qed.

(** The first candidate, in order, whose path lookup is not
    [undefined] decides the loop: the resolved value is that candidate's
    value with its modifiers applied, whatever the later candidates are; it
    is the result of [resolveExpression] as soon as it is not [undefined].
    A defined falsy value (the empty string, 0, [false]) is found like any
    other: the result is its string form after the modifiers, not a later
    candidate and not the default. *)
Theorem first_found_fallback_decides (expr : string) (substitutions : value)
    (sourcePath : string) (before : list string) (candidate : string)
    (after : list string) :
  fallbacks_of expr = (before ++ candidate :: after)%list ->
  (forall f, In f before -> get substitutions (fallback_path f) = VUndefined) ->
  get substitutions (fallback_path candidate) <> VUndefined ->
  let found := get substitutions (fallback_path candidate) in
  let resolved := applyModifiers found (fallback_modifiers candidate) in
  resolve_fallbacks substitutions (fallbacks_of expr) = resolved
  /\ (resolved <> VUndefined ->
      resolveExpression expr substitutions sourcePath = String_ resolved)
  /\ (found = VStr EmptyString \/ found = VNum 0 \/ found = VBool false ->
      exists text, String_ resolved = Ok text
                   /\ resolveExpression expr substitutions sourcePath = Ok text).
Proof.
  intros Hsplit Hbefore Hfound found resolved.
  assert (Hloop : resolve_fallbacks substitutions (fallbacks_of expr) = resolved).
  { rewrite Hsplit. now apply resolve_fallbacks_first. }
  split; [exact Hloop|]. split.
  - intros Hres. rewrite resolveExpression_resolved; rewrite Hloop; auto.
  - intros Hfalsy.
    assert (Hprim : is_primitive resolved = true).
    { apply applyModifiers_primitive.
      destruct Hfalsy as [-> | [-> | ->]]; reflexivity. }
    destruct (primitive_converts _ Hprim) as [text Htext].
    exists text. split; [exact Htext|].
    rewrite resolveExpression_resolved; rewrite Hloop; auto.
    intros E. rewrite E in Hprim. discriminate.
Qed.

Example first_found_fallback_example :
  resolveExpression "missing | b:upper | a = d" C1_tree "strings.xml.tmpl" = Ok "X"
  /\ resolveExpression "missing | a:upper | b = d" C1_tree "strings.xml.tmpl"
     = Ok EmptyString.
Proof.
  split.
  - refine (eq_trans
              (proj1 (proj2 (first_found_fallback_decides "missing | b:upper | a = d"
                 C1_tree "strings.xml.tmpl" ["missing"] "b:upper" ["a"] eq_refl _ _)) _)
              eq_refl).
    + intros f [<- | []]. reflexivity.
    + vm_compute. discriminate.
    + vm_compute. discriminate.
  - refine (eq_trans
              (proj1 (proj2 (first_found_fallback_decides "missing | a:upper | b = d"
                 C1_tree "strings.xml.tmpl" ["missing"] "a:upper" ["b"] eq_refl _ _)) _)
              eq_refl).
    + intros f [<- | []]. reflexivity.
    + vm_compute. discriminate.
    + vm_compute. discriminate.
Qed.

(** C1 (defect of the code).  The first candidate of
    [toString:json | b = d] is found: on every object the lookup of
    [toString] gives the inherited method, which is not [undefined].  The
    loop stops there, and the candidate [b], although present, is not
    looked at.  But the modifier [json] turns a function into [undefined],
    and the test after the loop takes [undefined] for "no candidate was
    found": the result is the default text [d], neither the found
    candidate's value after its modifiers nor the value of [b]. *)
Theorem C1_found_candidate_falls_through_to_default :
  fallbacks_of "toString:json | b = d" = ["toString:json"; "b"]
  /\ defaultValue_of "toString:json | b = d" = Some "d"
  /\ get inherited_tree (fallback_path "toString:json") = VFunction "toString"
  /\ fallback_modifiers "toString:json" = ["json"]
  /\ applyModifiers (VFunction "toString") ["json"] = VUndefined
  /\ resolve_fallbacks inherited_tree (fallbacks_of "toString:json | b = d")
     = VUndefined
  /\ get inherited_tree (fallback_path "b") = VStr "x"
  /\ resolveExpression "toString:json | b = d" inherited_tree "strings.xml.tmpl"
     = Ok "d"
  /\ substitute_template inherited_tree "strings.xml.tmpl"
       "<b>{{ toString:json | b = d }}</b>"
     = Ok "<b>d</b>".
Proof. repeat split. Qed.

(** The example of the specification: with [a] undefined and [b = "x"] the
    expression [a | b] gives ["x"]; with [a] the empty string it gives the
    empty string. *)
Example fallback_order_example :
  resolveExpression "a | b" (VJson (JObj [("b", JStr "x")])) "f" = Ok "x"
  /\ resolveExpression "a | b" C1_tree "f" = Ok EmptyString
  /\ resolveExpression "n | b = d" C1_tree "f" = Ok "0".
Proof. repeat split. Qed.

(** ** The default text *)

Lemma span_not_spec (c : ascii) (s : string) :
  s = fst (span_not c s) ++ snd (span_not c s)
  /\ mem_char c (fst (span_not c s)) = false
  /\ (snd (span_not c s) = EmptyString
      \/ exists rest, snd (span_not c s) = String c rest).
Proof.
  induction s as [|a s IH]; simpl.
  - auto.
  - destruct (Ascii.eqb a c) eqn:E.
    + simpl. apply Ascii.eqb_eq in E. subst. eauto.
    + destruct (span_not c s) as [run rest]. simpl in *.
      destruct IH as [H1 [H2 H3]]. rewrite E, H2, <- H1. auto.
Qed.

Lemma span_not_absent (c : ascii) (s : string) :
  mem_char c s = false -> span_not c s = (s, EmptyString).
Proof.
  induction s as [|a s IH]; simpl; [reflexivity|].
  intros H. apply orb_false_iff in H as [Ha Hs].
  rewrite Ha, (IH Hs). reflexivity.
Qed.

Lemma span_not_first (c : ascii) (a s : string) :
  mem_char c a = false -> span_not c (a ++ String c s) = (a, String c s).
Proof.
  induction a as [|x a IH]; simpl.
  - now rewrite Ascii.eqb_refl.
  - intros H. apply orb_false_iff in H as [Hx Ha].
    rewrite Hx, (IH Ha). reflexivity.
Qed.

Lemma trimEnd_idempotent (s : string) : trimEnd (trimEnd s) = trimEnd s.
Proof.
  induction s as [|c s IH]; simpl; [reflexivity|].
  destruct (trimEnd s) as [|d t] eqn:E.
  - destruct (is_space c) eqn:Ec; simpl; [reflexivity | now rewrite Ec].
  - change (trimEnd (String c (String d t))) with
      (match trimEnd (String d t) with
       | EmptyString => if is_space c then EmptyString else String c EmptyString
       | u => String c u
       end).
    rewrite IH. reflexivity.
Qed.

Lemma trimEnd_head (c : ascii) (s : string) :
  is_space c = false -> exists t, trimEnd (String c s) = String c t.
Proof.
  intros Hc. simpl. destruct (trimEnd s); [rewrite Hc|]; eauto.
Qed.

Lemma trimStart_head (s : string) :
  trimStart s = EmptyString \/ exists c t, trimStart s = String c t /\ is_space c = false.
Proof.
  induction s as [|c s IH]; simpl; [now left|].
  destruct (is_space c) eqn:E; [exact IH|]. right. eauto.
Qed.

Lemma trim_idempotent (s : string) : trim (trim s) = trim s.
Proof.
  unfold trim.
  destruct (trimStart_head s) as [-> | [c [t [-> Hc]]]]; [reflexivity|].
  destruct (trimEnd_head c t Hc) as [u Hu].
  rewrite Hu. simpl trimStart. rewrite Hc, <- Hu. apply trimEnd_idempotent.
Qed.

(** Without ['='] there is no default and the whole expression, trimmed, is
    the fallback specification. *)
Lemma no_equals_no_default (expr : string) :
  mem_char "=" expr = false ->
  defaultValue_of expr = None /\ fallbacksStr_of expr = trim expr.
Proof.
  intros H. unfold defaultValue_of, fallbacksStr_of, expression_parts.
  rewrite (split_char_absent _ _ H). split; reflexivity.
Qed.

(** With ['='] the fallback specification is the trimmed text before the
    first one, and the default joins the trimmed pieces of what follows. *)
Lemma equals_splits_default (before after : string) :
  mem_char "=" before = false ->
  fallbacksStr_of (before ++ String "=" after) = trim before
  /\ defaultValue_of (before ++ String "=" after)
     = Some (trim (join "=" (map trim (split "=" after)))).
Proof.
  intros H. unfold defaultValue_of, fallbacksStr_of, expression_parts.
  rewrite (split_char_first _ _ _ H). cbn [map hd tl]. split; [reflexivity|].
  destruct (map trim (split "=" after)) eqn:E; [|reflexivity].
  apply map_eq_nil in E. unfold split in E. now apply split_from_nonempty in E.
Qed.

(** With a single ['='] the default is the trimmed text after it. *)
Lemma single_equals_default (before after : string) :
  mem_char "=" before = false -> mem_char "=" after = false ->
  defaultValue_of (before ++ String "=" after) = Some (trim after)
  /\ default_after_first_equals (before ++ String "=" after) = Some (trim after).
Proof.
  intros Hb Ha. split.
  - rewrite (proj2 (equals_splits_default before after Hb)).
    rewrite (split_char_absent _ _ Ha). simpl. now rewrite trim_idempotent.
  - unfold default_after_first_equals. now rewrite (span_not_first _ _ _ Hb).
Qed.

(** C4 (the code departs from it).  On [k = a = b] the text after the first
    ['='] is [ a = b]; trimmed of its surrounding white space only it is
    [a = b].  The code trims every piece between two ['='] before joining
    them again and so yields [a=b]: the white space around the later ['=']
    is lost. *)
Theorem C4_default_loses_space_around_later_equals :
  default_after_first_equals "k = a = b" = Some "a = b"
  /\ defaultValue_of "k = a = b" = Some "a=b"
  /\ fallbacksStr_of "k = a = b" = "k"
  /\ resolveExpression "k = a = b" empty_tree "strings.xml.tmpl" = Ok "a=b".
Proof. repeat split. Qed.

(** ** Secondary substitution in the default text *)

Lemma match_at_other (c : ascii) (s : string) :
  Ascii.eqb c "@" = false -> match_at (String c s) = None.
Proof.
  ascii_cases c; try reflexivity; discriminate.
Qed.

Lemma match_at_token (token rest : string) :
  mem_char "@" token = false -> token <> EmptyString ->
  match_at (String "@" (token ++ String "@" rest)) = Some token.
Proof.
  intros H Hne. unfold match_at.
  rewrite (span_not_first _ _ _ H). destruct token; [congruence | reflexivity].
Qed.

Lemma replace_at_skip (callback : string -> result string) (passed s : string) :
  replace_at callback (String.length passed) (passed ++ s) = replace_at callback 0 s.
Proof.
  induction passed as [|c passed IH]; simpl; [reflexivity | exact IH].
Qed.

(** A text without ['@'] is left as it is. *)
Lemma replace_at_plain (callback : string -> result string) (s : string) :
  mem_char "@" s = false -> replace_at callback 0 s = Ok s.
Proof.
  induction s as [|c s IH]; [reflexivity|].
  intros H. simpl in H. apply orb_false_iff in H as [Hc Hs].
  cbn [replace_at]. rewrite (match_at_other _ _ Hc), (IH Hs). reflexivity.
Qed.

(** The first token: the text before it is kept, the callback's string
    replaces it, and the scan goes on after its closing ['@']. *)
Lemma replace_at_first_token (callback : string -> result string)
    (before token after : string) :
  mem_char "@" before = false -> mem_char "@" token = false -> token <> EmptyString ->
  replace_at callback 0 (before ++ String "@" (token ++ String "@" after))
  = (r <- callback token ;;
     t <- replace_at callback 0 after ;;
     Ok (before ++ r ++ t)).
Proof.
  intros Hb Ht Hne. induction before as [|c before IH].
  - cbn [append replace_at]. rewrite (match_at_token _ _ Ht Hne).
    replace (String.length token + 1) with (String.length (token ++ "@")).
    + replace (token ++ String "@" after) with ((token ++ "@") ++ after).
      * rewrite replace_at_skip. reflexivity.
      * rewrite append_assoc. reflexivity.
    + rewrite length_append. reflexivity.
  - simpl in Hb. apply orb_false_iff in Hb as [Hc Hb].
    cbn [append replace_at]. rewrite (match_at_other _ _ Hc), (IH Hb).
    destruct (callback token) as [r|e]; [|reflexivity]. simpl.
    destruct (replace_at callback 0 after) as [t|e]; reflexivity.
Qed.

Lemma resolveExpression_default (expr : string) (substitutions : value)
    (sourcePath text : string) :
  (forall f, In f (fallbacks_of expr) ->
             get substitutions (fallback_path f) = VUndefined) ->
  defaultValue_of expr = Some text ->
  resolveExpression expr substitutions sourcePath
  = replace_at (default_callback expr substitutions sourcePath) 0 text.
Proof.
  intros Hnone Hdefault. unfold resolveExpression.
  rewrite (resolve_fallbacks_none _ _ Hnone), Hdefault. simpl.
  destruct (replace_at _ 0 text); reflexivity.
Qed.

Lemma replace_at_lone_at (callback : string -> result string) (before after : string) :
  mem_char "@" before = false -> match_at (String "@" after) = None ->
  replace_at callback 0 (before ++ String "@" after)
  = (t <- replace_at callback 0 after ;; Ok (before ++ String "@" t)).
Proof.
  intros Hb Hm. induction before as [|c before IH].
  - cbn [append replace_at]. now rewrite Hm.
  - simpl in Hb. apply orb_false_iff in Hb as [Hc Hb].
    cbn [append replace_at]. rewrite (match_at_other _ _ Hc), (IH Hb).
    destruct (replace_at callback 0 after) as [t|e]; reflexivity.
Qed.

(** C6.  When no fallback resolves and there is a default text, the result
    is the default text with its [@path@] tokens replaced, and nothing else
    is done to it.  The scan treats every token alike: the text before a
    token is kept; the trimmed token is looked up by [get] as it stands,
    with no modifiers and no fallbacks; a string is spliced in, a number is
    spliced in as its decimal numeral, and the scan goes on after the token;
    any other value (mapping, array, [null], [undefined], boolean) fails the
    resolution with an error naming the token, the outer expression and the
    source file.  An ['@'] that opens no token is kept, and a text without
    ['@'] is the result as it is. *)
Theorem C6_default_secondary_substitution (expr : string) (substitutions : value)
    (sourcePath text : string) :
  (forall f, In f (fallbacks_of expr) ->
             get substitutions (fallback_path f) = VUndefined) ->
  defaultValue_of expr = Some text ->
  let scan := replace_at (default_callback expr substitutions sourcePath) 0 in
  resolveExpression expr substitutions sourcePath = scan text
  /\ (forall s, mem_char "@" s = false -> scan s = Ok s)
  /\ (forall before token after,
        mem_char "@" before = false -> mem_char "@" token = false ->
        token <> EmptyString ->
        scan (before ++ String "@" (token ++ String "@" after))
        = match get substitutions (trim token) with
          | VJson (JStr s) => t <- scan after ;; Ok (before ++ s ++ t)
          | VJson (JNum n) => t <- scan after ;; Ok (before ++ decimal n ++ t)
          | _ =>
              Throw (Error ("Variable '@" ++ trim token ++ "@' inside default for '"
                            ++ expr ++ "' in '" ++ sourcePath
                            ++ "' must resolve to a string or number."))
          end)
  /\ (forall before after,
        mem_char "@" before = false -> match_at (String "@" after) = None ->
        scan (before ++ String "@" after)
        = (t <- scan after ;; Ok (before ++ String "@" t))).
Proof.
  intros Hnone Hdefault scan.
  split; [exact (resolveExpression_default _ _ _ _ Hnone Hdefault)|].
  split; [intros s; apply replace_at_plain|].
  split; [|intros before after; apply replace_at_lone_at].
  intros before token after Hb Ht Hne. unfold scan.
  rewrite (replace_at_first_token _ _ _ _ Hb Ht Hne).
  pose proof (eq_refl (default_callback expr substitutions sourcePath token)) as Hcb.
  unfold default_callback at 2 in Hcb.
  destruct (get substitutions (trim token)) as [|j| | |];
    try (rewrite Hcb; reflexivity).
  destruct j; rewrite Hcb; reflexivity.
Qed.

Lemma C6_default_secondary_substitution_witness :
  resolveExpression "missing = Hello, @user.name@ (@ user.age @)" C6_tree "strings.xml.tmpl"
  = Ok "Hello, Ann (30)"
  /\ resolveExpression "missing = @user@" C6_tree "strings.xml.tmpl"
     = Throw (Error ("Variable '@user@' inside default for 'missing = @user@' in "
                     ++ "'strings.xml.tmpl' must resolve to a string or number.")).
Proof.
  assert (Hnone : forall expr, fallbacks_of expr = ["missing"] ->
            forall f, In f (fallbacks_of expr) ->
                      get C6_tree (fallback_path f) = VUndefined).
  { intros expr -> f [<- | []]. reflexivity. }
  split.
  - destruct (C6_default_secondary_substitution
                "missing = Hello, @user.name@ (@ user.age @)" C6_tree
                "strings.xml.tmpl" "Hello, @user.name@ (@ user.age @)"
                (Hnone "missing = Hello, @user.name@ (@ user.age @)" eq_refl) eq_refl)
      as [Hresult [_ [Htoken _]]].
    rewrite Hresult.
    exact (eq_trans (Htoken "Hello, " "user.name" " (@ user.age @)" eq_refl eq_refl
                       ltac:(discriminate)) eq_refl).
  - destruct (C6_default_secondary_substitution
                "missing = @user@" C6_tree "strings.xml.tmpl" "@user@"
                (Hnone "missing = @user@" eq_refl) eq_refl)
      as [Hresult [_ [Htoken _]]].
    rewrite Hresult.
    exact (eq_trans (Htoken EmptyString "user" EmptyString eq_refl eq_refl
                       ltac:(discriminate)) eq_refl).
Defined.

(** ** String conversion of the resolved value *)

Lemma ToString_json_array (elems : list json) :
  ToString_json (JArr elems) = (parts <- elements_strings elems ;; Ok (join "," parts)).
Proof.
  reflexivity.
Qed.

Lemma ToString_json_throws :
  forall (j : json) (e : exn), ToString_json j = Throw e -> e = cannot_convert.
Proof.
  induction j as [|b|n|s|elems IH|props IH] using json_nested_ind;
    intros e; try discriminate.
  - destruct b; discriminate.
  - assert (Hall : forall ee, elements_strings elems = Throw ee -> ee = cannot_convert).
    { induction IH as [|x elems Hx _ IHe]; intros ee; cbn [elements_strings];
        [discriminate|].
      destruct (element_string x) as [s|ex] eqn:Ex; simpl.
      - destruct (elements_strings elems) as [parts|e'] eqn:Ee; simpl; [discriminate|].
        intros [= <-]. now apply IHe.
      - intros [= <-]. apply Hx. destruct x; try discriminate; exact Ex. }
    rewrite ToString_json_array.
    destruct (elements_strings elems) as [parts|ee] eqn:Ee; simpl; [discriminate|].
    intros [= <-]. now apply Hall.
  - cbn [ToString_json].
    destruct (assoc "toString" props); [|discriminate]. now intros [= <-].
Qed.

Lemma String_throws (v : value) (e : exn) : String_ v = Throw e -> e = cannot_convert.
Proof. destruct v; simpl; try discriminate. apply ToString_json_throws. Qed.

Lemma ToString_array (elems : list json) (parts : list string) :
  Forall2 (fun e s => element_string e = Ok s) elems parts ->
  ToString_json (JArr elems) = Ok (join "," parts).
Proof.
  intros H. rewrite ToString_json_array.
  assert (Heach : elements_strings elems = Ok parts).
  { induction H as [|x s elems parts Hx _ IH]; [reflexivity|].
    cbn [elements_strings]. rewrite Hx, IH. reflexivity. }
  rewrite Heach. reflexivity.
Qed.

Lemma other_modifier_not_string (modifier : string) (j : json) :
  is_string j = false -> other_modifier modifier (VJson j) = VJson j.
Proof. destruct j; try reflexivity. discriminate. Qed.

Lemma modifier_pipeline_not_string (modifiers : list string) (j : json) :
  is_string j = false -> mem_string "json" modifiers = false ->
  modifier_pipeline (VJson j) modifiers = VJson j.
Proof.
  intros Hj. induction modifiers as [|modifier rest IH]; [reflexivity|].
  intros H. cbn [mem_string] in H. apply orb_false_iff in H as [Hm Hrest].
  cbn [modifier_pipeline]. rewrite Hm, (other_modifier_not_string _ _ Hj). now apply IH.
Qed.

(** ** Claims about failure and conversion *)

(** C7 (amended).  With no default and every candidate unresolved,
    [resolveExpression] fails with the error whose message holds the
    candidates joined by [" | "] and the source path.  Conversely, when the
    loop leaves a resolved value, the result is the string conversion of that
    value: no error of the resolver is raised, and none at all when the value
    is a string, a number, a boolean or [null]; and when nothing is resolved
    but a default exists whose secondary substitution succeeds, the result is
    the substituted default. *)
Theorem C7_unresolved_error_and_converse (expr : string) (substitutions : value)
    (sourcePath : string) :
  let resolved := resolve_fallbacks substitutions (fallbacks_of expr) in
  (defaultValue_of expr = None ->
   (forall f, In f (fallbacks_of expr) ->
              get substitutions (fallback_path f) = VUndefined) ->
   resolveExpression expr substitutions sourcePath
   = Throw (Error ("Variable '" ++ join " | " (fallbacks_of expr)
                   ++ "' could not be resolved in file '" ++ sourcePath ++ "'.")))
  /\ (resolved <> VUndefined ->
      resolveExpression expr substitutions sourcePath = String_ resolved
      /\ forall message,
           resolveExpression expr substitutions sourcePath <> Throw (Error message))
  /\ (is_primitive resolved = true ->
      exists text, resolveExpression expr substitutions sourcePath = Ok text)
  /\ (forall text s,
        resolved = VUndefined -> defaultValue_of expr = Some text ->
        replace_at (default_callback expr substitutions sourcePath) 0 text = Ok s ->
        resolveExpression expr substitutions sourcePath = Ok s).
Proof.
  intros resolved. split; [|split; [|split]].
  - intros Hdefault Hnone. unfold resolveExpression.
    now rewrite (resolve_fallbacks_none _ _ Hnone), Hdefault.
  - intros Hres. rewrite (resolveExpression_resolved _ _ _ Hres). fold resolved.
    split; [reflexivity|].
    intros message H. apply String_throws in H. discriminate.
  - intros Hprim.
    destruct (primitive_converts _ Hprim) as [text Htext]. exists text.
    rewrite resolveExpression_resolved; [exact Htext|].
    fold resolved. intros E. rewrite E in Hprim. discriminate.
  - intros text s Hres Hdefault Hs. unfold resolveExpression.
    fold resolved. rewrite Hres, Hdefault. simpl. now rewrite Hs.
Qed.

Lemma C7_unresolved_error_and_converse_witness :
  resolveExpression "missing.path | other:lower" C7_tree "strings.xml.tmpl"
  = Throw (Error ("Variable 'missing.path | other:lower' could not be resolved in file "
                  ++ "'strings.xml.tmpl'."))
  /\ resolveExpression "app.name" C7_tree "strings.xml.tmpl" = Ok "demo"
  /\ resolveExpression "missing = none" C7_tree "strings.xml.tmpl" = Ok "none".
Proof.
  split; [|split].
  - apply (proj1 (C7_unresolved_error_and_converse "missing.path | other:lower"
                    C7_tree "strings.xml.tmpl")); [reflexivity|].
    intros f [<- | [<- | []]]; reflexivity.
  - rewrite (proj1 (proj1 (proj2 (C7_unresolved_error_and_converse "app.name"
                    C7_tree "strings.xml.tmpl")) ltac:(vm_compute; discriminate))).
    reflexivity.
  - apply (proj2 (proj2 (proj2 (C7_unresolved_error_and_converse "missing = none"
                    C7_tree "strings.xml.tmpl"))) "none" "none"); reflexivity.
Defined.

(** C7 as stated fails: the candidate [app] resolves to a mapping, and no
    default is involved, yet an error is raised, the [TypeError] of the
    string conversion of a mapping that has a property named [toString] of
    its own. *)
Lemma C7_counterexample_resolved_value_throws :
  get C7_tree (fallback_path "app") <> VUndefined
  /\ resolve_fallbacks C7_tree (fallbacks_of "app") <> VUndefined
  /\ resolveExpression "app" C7_tree "strings.xml.tmpl"
     = Throw (TypeError "Cannot convert object to primitive value").
Proof. repeat split; vm_compute; discriminate. Qed.

(** C10 (amended).  When the first found candidate resolves to data that is
    not a string and carries no [json] modifier, the value goes unchanged
    through the modifiers and the result is its default string conversion,
    with no restriction to strings and numbers: [null] gives ["null"], a
    mapping without a property named [toString] of its own gives
    ["[object Object]"], an array gives the strings of its elements joined by
    commas, [null] elements giving nothing.  The conversion of a mapping that
    has a property named [toString] of its own throws a [TypeError]. *)
Theorem C10_non_string_value_is_coerced (expr : string) (substitutions : value)
    (sourcePath : string) (before : list string) (candidate : string)
    (after : list string) (j : json) :
  fallbacks_of expr = (before ++ candidate :: after)%list ->
  (forall f, In f before -> get substitutions (fallback_path f) = VUndefined) ->
  get substitutions (fallback_path candidate) = VJson j ->
  is_string j = false ->
  mem_string "json" (fallback_modifiers candidate) = false ->
  resolveExpression expr substitutions sourcePath = ToString_json j
  /\ (j = JNull -> resolveExpression expr substitutions sourcePath = Ok "null")
  /\ (forall props,
        j = JObj props -> assoc "toString" props = None ->
        resolveExpression expr substitutions sourcePath = Ok "[object Object]")
  /\ (forall props,
        j = JObj props -> assoc "toString" props <> None ->
        resolveExpression expr substitutions sourcePath
        = Throw (TypeError "Cannot convert object to primitive value"))
  /\ (forall elems parts,
        j = JArr elems ->
        Forall2 (fun e s => element_string e = Ok s) elems parts ->
        resolveExpression expr substitutions sourcePath = Ok (join "," parts)).
Proof.
  intros Hsplit Hbefore Hfound Hj Hmods.
  assert (Hres : resolveExpression expr substitutions sourcePath = ToString_json j).
  { assert (Hloop : resolve_fallbacks substitutions (fallbacks_of expr) = VJson j).
    { rewrite Hsplit, resolve_fallbacks_first; [|exact Hbefore|congruence].
      rewrite Hfound, applyModifiers_pipeline.
      now apply modifier_pipeline_not_string. }
    rewrite resolveExpression_resolved; rewrite Hloop; [reflexivity | discriminate]. }
  rewrite Hres. split; [reflexivity|]. split; [now intros ->|].
  split; [|split].
  - intros props -> H. cbn [ToString_json]. now rewrite H.
  - intros props -> H. cbn [ToString_json].
    destruct (assoc "toString" props); [reflexivity | congruence].
  - intros elems parts -> H. now apply ToString_array.
Qed.

Lemma C10_non_string_value_is_coerced_witness :
  resolveExpression "missing | user:lower" C10_tree "strings.xml.tmpl" = Ok "[object Object]"
  /\ resolveExpression "tags" C10_tree "strings.xml.tmpl" = Ok "a,,2"
  /\ resolveExpression "nothing" C10_tree "strings.xml.tmpl" = Ok "null".
Proof.
  assert (Hmissing : forall f, In f ["missing"] ->
                                get C10_tree (fallback_path f) = VUndefined).
  { intros f [<- | []]. reflexivity. }
  split; [|split].
  - apply (proj1 (proj2 (proj2 (C10_non_string_value_is_coerced
             "missing | user:lower" C10_tree "strings.xml.tmpl"
             ["missing"] "user:lower" [] (JObj [("name", JStr "Ann")])
             eq_refl Hmissing eq_refl eq_refl eq_refl))) [("name", JStr "Ann")]);
      reflexivity.
  - apply (proj2 (proj2 (proj2 (proj2 (C10_non_string_value_is_coerced
             "tags" C10_tree "strings.xml.tmpl"
             [] "tags" [] (JArr [JStr "a"; JNull; JNum 2])
             eq_refl (fun f H => match H with end) eq_refl eq_refl eq_refl))))
             [JStr "a"; JNull; JNum 2] ["a"; EmptyString; "2"]); [reflexivity|].
    repeat constructor.
  - apply (proj1 (proj2 (C10_non_string_value_is_coerced
             "nothing" C10_tree "strings.xml.tmpl"
             [] "nothing" [] JNull
             eq_refl (fun f H => match H with end) eq_refl eq_refl eq_refl))).
    reflexivity.
Defined.

(** C10 as stated fails: [cfg] resolves to a mapping and has no modifier,
    yet the resolution fails instead of yielding ["[object Object]"]. *)
Lemma C10_counterexample_mapping_with_toString :
  get C10_tree (fallback_path "cfg") = VJson (JObj [("toString", JStr "x")])
  /\ fallback_modifiers "cfg" = []
  /\ resolveExpression "cfg" C10_tree "strings.xml.tmpl"
     = Throw (TypeError "Cannot convert object to primitive value")
  /\ resolveExpression "cfg" C10_tree "strings.xml.tmpl" <> Ok "[object Object]".
Proof. repeat split; vm_compute; discriminate. Qed.

(** ** The tree copier: template decision and target name *)

Lemma take_drop (n : nat) (s : string) : take n s ++ drop n s = s.
Proof.
  revert s; induction n as [|n IH]; intros s; [reflexivity|].
  destruct s as [|c s]; [reflexivity|]. simpl. now rewrite IH.
Qed.

Lemma slice_end_suffix (suffix s : string) :
  endsWith suffix s = true -> slice_end (String.length suffix) s ++ suffix = s.
Proof.
  unfold endsWith, slice_end. intros H.
  apply andb_true_iff in H as [_ H]. apply String.eqb_eq in H.
  rewrite <- H at 2. apply take_drop.
Qed.

(** C9.  For a file, the source path decides whether the content is
    substituted and the target path decides whether the suffix is dropped.
    A [.tmpl] source with a target not ending in [.tmpl] is processed as a
    template and written to the target name as given; a source without the
    suffix is copied, and a target name ending in [.tmpl] loses the suffix
    in both cases. *)
Theorem C9_source_decides_template_target_decides_name (content source target : string)
    (substitutions : value) :
  (endsWith tmpl source = true -> endsWith tmpl target = false ->
   forall text,
     substitute_template substitutions source content = Ok text ->
     copyAndSubstitute (File content) source target substitutions
     = done [mkdir (dirname target); writeFile target text])
  /\ (endsWith tmpl source = false -> endsWith tmpl target = true ->
      copyAndSubstitute (File content) source target substitutions
      = done [mkdir (dirname (slice_end 5 target)); copyFile source (slice_end 5 target)]
      /\ slice_end 5 target ++ tmpl = target)
  /\ (endsWith tmpl source = true -> endsWith tmpl target = true ->
      forall text,
        substitute_template substitutions source content = Ok text ->
        copyAndSubstitute (File content) source target substitutions
        = done [mkdir (dirname (slice_end 5 target)); writeFile (slice_end 5 target) text])
  /\ (endsWith tmpl source = false -> endsWith tmpl target = false ->
      copyAndSubstitute (File content) source target substitutions
      = done [mkdir (dirname target); copyFile source target]).
Proof.
  cbn [copyAndSubstitute]. unfold finalTargetPath.
  split; [|split; [|split]].
  - intros -> -> text ->. reflexivity.
  - intros -> Ht. rewrite Ht. split; [reflexivity|].
    apply (slice_end_suffix tmpl target Ht).
  - intros -> -> text ->. reflexivity.
  - intros -> ->. reflexivity.
Qed.

(** The call of [init.sh]: the template [strings.xml.tmpl] is substituted
    and written to [strings.xml]. *)
Lemma C9_source_decides_template_target_decides_name_witness :
  copyAndSubstitute (File strings_template) "/repo/etc/strings.xml.tmpl"
    "/repo/app/src/main/res/values/strings.xml" strings_tree
  = done [mkdir "/repo/app/src/main/res/values";
          writeFile "/repo/app/src/main/res/values/strings.xml"
            ("<string name=" ++ double_quote ++ "app_name" ++ double_quote
             ++ ">Demo</string>")]
  /\ copyAndSubstitute (File strings_template) "/repo/etc/strings.xml"
       "/repo/out/strings.xml.tmpl" strings_tree
     = done [mkdir "/repo/out"; copyFile "/repo/etc/strings.xml" "/repo/out/strings.xml"].
Proof.
  split.
  - apply (proj1 (C9_source_decides_template_target_decides_name strings_template
                    "/repo/etc/strings.xml.tmpl"
                    "/repo/app/src/main/res/values/strings.xml" strings_tree));
      reflexivity.
  - apply (proj1 (proj1 (proj2 (C9_source_decides_template_target_decides_name
                    strings_template "/repo/etc/strings.xml"
                    "/repo/out/strings.xml.tmpl" strings_tree)) eq_refl eq_refl)).
Defined.

(** ** The template pass *)

(** C8 (defect of the code).  The expressions are resolved first, from the
    matches in the original content, and the replacements are applied
    afterwards by exact text; but each replacement is applied to the content
    as the previous replacements left it.  The value of [a] is the text
    [{{b}}], which is also the matched text of the second expression: the
    second replacement replaces it too, so the resolved value of [a] is
    substituted again, and the file written holds [X X] where replacing each
    matched span by its resolved value gives [{{b}} X]. *)
Theorem C8_double_substitution :
  matchAll 0 "{{a}} {{b}}" = [("{{a}}", "a"); ("{{b}}", "b")]
  /\ resolveExpression "a" C8_tree "strings.xml.tmpl" = Ok "{{b}}"
  /\ resolveExpression "b" C8_tree "strings.xml.tmpl" = Ok "X"
  /\ substitute_in_place C8_tree "strings.xml.tmpl" "{{a}} {{b}}" = Ok "{{b}} X"
  /\ substitute_template C8_tree "strings.xml.tmpl" "{{a}} {{b}}" = Ok "X X"
  /\ substitute_template C8_tree "strings.xml.tmpl" "{{a}} {{b}}"
     <> substitute_in_place C8_tree "strings.xml.tmpl" "{{a}} {{b}}"
  /\ copyAndSubstitute (File "{{a}} {{b}}") "/repo/etc/strings.xml.tmpl"
       "/repo/out/strings.xml" C8_tree
     = done [mkdir "/repo/out"; writeFile "/repo/out/strings.xml" "X X"].
Proof. repeat split. vm_compute. discriminate. Qed.

Lemma join_cons_head (r : string) (c : ascii) (hd : string) (tl : list string) :
  join r (String c hd :: tl) = String c (join r (hd :: tl)).
Proof. destruct tl; reflexivity. Qed.

Lemma replace_all_char (f r : string) (c : ascii) (s : string) :
  f <> EmptyString -> startsWith f (String c s) = false ->
  replace_all f r (String c s) = String c (replace_all f r s).
Proof.
  intros Hf H. unfold replace_all, split.
  destruct f as [|a f]; [congruence|].
  cbn [split_from]. rewrite H.
  destruct (split_from (String a f) 0 s) as [|hd tl] eqn:E.
  - now apply split_from_nonempty in E.
  - apply join_cons_head.
Qed.

Lemma startsWith_append (f s : string) : startsWith f (f ++ s) = true.
Proof.
  induction f as [|a f IH]; [reflexivity|]. simpl. now rewrite Ascii.eqb_refl.
Qed.

Lemma split_from_pass (f passed s : string) :
  split_from f (String.length passed) (passed ++ s) = split_from f 0 s.
Proof.
  induction passed as [|c passed IH]; [reflexivity|]. exact IH.
Qed.

Lemma replace_all_match (f r s : string) :
  f <> EmptyString -> replace_all f r (f ++ s) = r ++ replace_all f r s.
Proof.
  intros Hf. unfold replace_all, split.
  destruct f as [|a f]; [congruence|].
  cbn [append split_from].
  change (String a (f ++ s)) with (String a f ++ s). rewrite startsWith_append.
  replace (String.length (String a f) - 1) with (String.length f) by (simpl; lia).
  rewrite split_from_pass.
  destruct (split_from (String a f) 0 s) as [|hd tl] eqn:E.
  - now apply split_from_nonempty in E.
  - reflexivity.
Qed.

Lemma replace_all_empty (f r : string) :
  f <> EmptyString -> replace_all f r EmptyString = EmptyString.
Proof. destruct f; [congruence | reflexivity]. Qed.

Lemma pattern_text_head (f : string) :
  pattern_text f -> exists f', f = String left_brace (String left_brace f').
Proof. intros [body [-> _]]. simpl. eauto. Qed.

Lemma pattern_text_nonempty (f : string) : pattern_text f -> f <> EmptyString.
Proof. intros H. destruct (pattern_text_head f H) as [f' ->]. discriminate. Qed.

Lemma startsWith_other_char (f' : string) (a c : ascii) (s : string) :
  Ascii.eqb c a = false -> startsWith (String a f') (String c s) = false.
Proof. intros H. simpl. now rewrite Ascii.eqb_sym, H. Qed.

(** The scan passes over a text without ['{']. *)
Lemma replace_all_plain (f r t s : string) :
  pattern_text f -> plain_text t ->
  replace_all f r (t ++ s) = t ++ replace_all f r s.
Proof.
  intros Hf. destruct (pattern_text_head f Hf) as [f' ->].
  unfold plain_text. induction t as [|c t IH]; [reflexivity|].
  intros H. simpl in H. apply orb_false_iff in H as [Hc Ht].
  cbn [append]. rewrite replace_all_char.
  - now rewrite (IH Ht).
  - discriminate.
  - now apply startsWith_other_char.
Qed.

Lemma startsWith_body (bf bt rest : string) :
  mem_char right_brace bf = false -> mem_char right_brace bt = false ->
  startsWith (bf ++ "}}") (bt ++ "}}" ++ rest) = true -> bf = bt.
Proof.
  revert bt; induction bf as [|x bf IH]; intros bt Hf Ht H.
  - destruct bt as [|y bt]; [reflexivity|].
    cbn [startsWith append mem_char] in H, Ht.
    apply orb_false_iff in Ht as [Hy _].
    apply andb_true_iff in H as [H _]. unfold right_brace in Hy.
    rewrite Ascii.eqb_sym in H. congruence.
  - cbn [mem_char] in Hf. apply orb_false_iff in Hf as [Hx Hf].
    destruct bt as [|y bt].
    + cbn [startsWith append] in H. apply andb_true_iff in H as [H _].
      unfold right_brace in Hx. congruence.
    + cbn [startsWith append mem_char] in H, Ht.
      apply orb_false_iff in Ht as [_ Ht].
      apply andb_true_iff in H as [Hxy H]. apply Ascii.eqb_eq in Hxy. subst y.
      f_equal. now apply (IH bt).
Qed.

Lemma startsWith_pattern (f t rest : string) :
  pattern_text f -> pattern_text t -> startsWith f (t ++ rest) = true -> f = t.
Proof.
  intros [bf [-> [_ [Hf _]]]] [bt [-> [_ [Ht _]]]] H.
  rewrite !append_assoc in H. simpl in H.
  rewrite (startsWith_body bf bt rest Hf Ht); [reflexivity | exact H].
Qed.

Lemma plain_body (body : string) :
  mem_char left_brace body = false -> plain_text (body ++ "}}").
Proof.
  unfold plain_text. induction body as [|z body IH]; [reflexivity|].
  cbn [mem_char append]. intros H. apply orb_false_iff in H as [Hz H].
  now rewrite Hz, (IH H).
Qed.

(** The scan passes over a matched text other than the one searched. *)
Lemma replace_all_other (f r t s : string) :
  pattern_text f -> pattern_text t -> f <> t ->
  replace_all f r (t ++ s) = t ++ replace_all f r s.
Proof.
  intros Hf Ht Hne.
  assert (Hstart : startsWith f (t ++ s) = false).
  { destruct (startsWith f (t ++ s)) eqn:E; [|reflexivity].
    exfalso. apply Hne. now apply (startsWith_pattern f t s). }
  pose proof (pattern_text_nonempty f Hf) as Hnonempty.
  destruct Ht as [bt [-> [Hbt [Hbr Hbl]]]].
  assert (Et : forall u, ("{{" ++ bt ++ "}}") ++ u
                         = String left_brace (String left_brace ((bt ++ "}}") ++ u)))
    by reflexivity.
  rewrite Et in Hstart. rewrite !Et.
  rewrite (replace_all_char _ _ _ _ Hnonempty Hstart).
  rewrite replace_all_char; [|exact Hnonempty|].
  - now rewrite (replace_all_plain f r _ s Hf (plain_body bt Hbl)).
  - destruct (pattern_text_head f Hf) as [f' ->].
    destruct bt as [|y bt]; [congruence|].
    cbn [mem_char] in Hbl. apply orb_false_iff in Hbl as [Hy _].
    cbn [startsWith append]. rewrite Ascii.eqb_refl, (Ascii.eqb_sym left_brace y), Hy.
    reflexivity.
Qed.

Lemma plain_not_pattern (t : string) : plain_text t -> pattern_text t -> False.
Proof.
  intros Hp Ht. destruct (pattern_text_head t Ht) as [t' ->].
  unfold plain_text in Hp. simpl in Hp. discriminate.
Qed.

(** On a content made of texts that hold no ['{'] and of matched texts, one
    [split] and [join] replaces the texts equal to the searched one and
    nothing else. *)
Lemma replace_all_texts (f r : string) (texts : list string) :
  pattern_text f -> Forall ok_text texts ->
  replace_all f r (concat_strings texts)
  = concat_strings (map (fun t => if String.eqb t f then r else t) texts).
Proof.
  intros Hf Hall. induction Hall as [|t texts Ht _ IH]; cbn [concat_strings map].
  - apply replace_all_empty. now apply pattern_text_nonempty.
  - destruct (String.eqb_spec t f) as [-> | Hne].
    + rewrite replace_all_match by (now apply pattern_text_nonempty). now rewrite IH.
    + destruct Ht as [Hplain | Hpattern].
      * rewrite (replace_all_plain f r t _ Hf Hplain). now rewrite IH.
      * rewrite (replace_all_other f r t _ Hf Hpattern) by congruence. now rewrite IH.
Qed.

Lemma replace_text_ok (rep : replacement) (texts : list string) :
  good_replacement rep -> Forall ok_text texts ->
  Forall ok_text (map (replace_text rep) texts).
Proof.
  intros [_ Hr] Hall. induction Hall as [|t texts Ht _ IH]; cbn [map]; constructor.
  - unfold replace_text. destruct (String.eqb t (find rep)); [now left | exact Ht].
  - exact IH.
Qed.

Lemma apply_replacements_texts (replacements : list replacement) :
  forall texts,
    Forall good_replacement replacements -> Forall ok_text texts ->
    apply_replacements replacements (concat_strings texts)
    = concat_strings
        (fold_left (fun ts rep => map (replace_text rep) ts) replacements texts).
Proof.
  induction replacements as [|rep rest IH]; intros texts Hreps Htexts; [reflexivity|].
  inversion Hreps as [|? ? Hrep Hrest]; subst.
  unfold apply_replacements in *. cbn [fold_left].
  change (join (replace rep) (split (find rep) (concat_strings texts)))
    with (replace_all (find rep) (replace rep) (concat_strings texts)).
  rewrite (replace_all_texts _ _ _ (proj1 Hrep) Htexts).
  change (map (fun t => if String.eqb t (find rep) then replace rep else t) texts)
    with (map (replace_text rep) texts).
  apply IH; [exact Hrest | now apply replace_text_ok].
Qed.

Lemma final_text_plain (replacements : list replacement) (t : string) :
  Forall good_replacement replacements -> plain_text t ->
  final_text replacements t = t.
Proof.
  intros Hreps Ht. induction Hreps as [|rep rest [Hf _] _ IH]; [reflexivity|].
  cbn [final_text]. destruct (String.eqb_spec t (find rep)) as [-> | _]; [|exact IH].
  exfalso. now apply (plain_not_pattern (find rep)).
Qed.

Lemma fold_replace_text (replacements : list replacement) :
  forall texts,
    Forall good_replacement replacements ->
    fold_left (fun ts rep => map (replace_text rep) ts) replacements texts
    = map (final_text replacements) texts.
Proof.
  induction replacements as [|rep rest IH]; intros texts Hreps; cbn [fold_left].
  - symmetry. apply map_id.
  - inversion Hreps as [|? ? Hrep Hrest]; subst.
    rewrite (IH _ Hrest), map_map. apply map_ext. intros t.
    unfold replace_text. cbn [final_text].
    destruct (String.eqb t (find rep)); [|reflexivity].
    apply final_text_plain; [exact Hrest | exact (proj2 Hrep)].
Qed.

Lemma match_braces_spec (s : string) (m : string * string) :
  match_braces s = Some m -> match_shape m /\ exists rest, s = fst m ++ rest.
Proof.
  unfold match_braces.
  destruct s as [|c1 s]; [discriminate|].
  ascii_cases c1; try discriminate.
  destruct s as [|c2 rest]; [discriminate|].
  ascii_cases c2; try discriminate.
  pose proof (span_not_spec right_brace rest) as [Hrest [Hrun Hafter]].
  unfold right_brace in *.
  destruct (span_not "}" rest) as [run after]. cbn [fst snd] in *.
  destruct run as [|c body]; [discriminate|].
  destruct after as [|a1 after]; [discriminate|].
  destruct after as [|a2 after]; [discriminate|].
  ascii_cases a2; try discriminate.
  intros [= <-]. cbn [fst snd]. split.
  - exists (String c body). repeat split; [discriminate | exact Hrun].
  - exists after. destruct Hafter as [Hafter | [rest' Hafter]]; [discriminate|].
    injection Hafter as -> _. subst rest.
    change ("{{" ++ String c body ++ "}}") with (String "{" (String "{" (String c body ++ "}}"))).
    cbn [append]. do 3 f_equal. now rewrite append_assoc.
Qed.

Lemma matchAll_occurrences (content : string) :
  forall skip, matchAll skip content = occurrences (pieces skip content).
Proof.
  induction content as [|c content IH]; intros skip; [reflexivity|].
  cbn [matchAll pieces]. destruct skip as [|k]; [|apply IH].
  destruct (match_braces (String c content)) as [[fullMatch expr]|].
  - cbn [occurrences fst snd]. now rewrite IH.
  - cbn [occurrences]. apply IH.
Qed.

Lemma drop_append (a s : string) : drop (String.length a) (a ++ s) = s.
Proof. induction a as [|c a IH]; [reflexivity | exact IH]. Qed.

Lemma drop_empty (k : nat) : drop k EmptyString = EmptyString.
Proof. destruct k; reflexivity. Qed.

(** The pieces put together again are the content. *)
Lemma pieces_text (content : string) :
  forall skip,
    concat_strings (map piece_text (pieces skip content)) = drop skip content.
Proof.
  induction content as [|c content IH]; intros skip.
  - now rewrite drop_empty.
  - cbn [pieces]. destruct skip as [|k]; [|apply IH].
    destruct (match_braces (String c content)) as [m|] eqn:E.
    + destruct (match_braces_spec _ _ E) as [[body [Hfull _]] [rest Hrest]].
      cbn [map piece_text concat_strings drop]. rewrite IH.
      assert (Hhead : fst m = String left_brace (String left_brace (body ++ "}}")))
        by (rewrite Hfull; reflexivity).
      rewrite Hhead in *. cbn [append] in Hrest. injection Hrest as -> ->.
      cbn [append String.length]. f_equal.
      replace (S (S (String.length (body ++ "}}"))) - 1)
        with (String.length (String left_brace (body ++ "}}"))) by (simpl; lia).
      change (String left_brace ((body ++ "}}") ++ rest))
        with (String left_brace (body ++ "}}") ++ rest).
      now rewrite drop_append.
    + cbn [map piece_text concat_strings drop append]. now rewrite IH.
Qed.

Lemma pieces_occurrence (content : string) :
  forall skip fullMatch expr,
    In (Occurrence fullMatch expr) (pieces skip content) -> match_shape (fullMatch, expr).
Proof.
  induction content as [|c content IH]; intros skip fullMatch expr H; [contradiction|].
  cbn [pieces] in H. destruct skip as [|k]; [|now apply (IH k)].
  destruct (match_braces (String c content)) as [m|] eqn:E.
  - destruct H as [H | H]; [|now apply (IH _ _ _ H)].
    injection H as <- <-. destruct m. exact (proj1 (match_braces_spec _ _ E)).
  - destruct H as [H | H]; [discriminate | now apply (IH _ _ _ H)].
Qed.

Lemma occurrences_In (l : list piece) (fullMatch expr : string) :
  In (fullMatch, expr) (occurrences l) <-> In (Occurrence fullMatch expr) l.
Proof.
  induction l as [|[c|f e] l IH]; cbn [occurrences In].
  - tauto.
  - rewrite IH. split; [now right | intros [H | H]; [discriminate | exact H]].
  - rewrite IH. split; intros [H | H]; try (now right); left; congruence.
Qed.

Lemma mem_char_append (c : ascii) (a b : string) :
  mem_char c (a ++ b) = (mem_char c a || mem_char c b)%bool.
Proof.
  induction a as [|x a IH]; [reflexivity|]. cbn [append mem_char].
  now rewrite IH, orb_assoc.
Qed.

Lemma startsWith_refl (s : string) : startsWith s s = true.
Proof. rewrite <- (append_empty_r s) at 2. apply startsWith_append. Qed.

(** The matched text determines the expression. *)
Lemma match_shape_functional (fullMatch e1 e2 : string) :
  match_shape (fullMatch, e1) -> match_shape (fullMatch, e2) -> e1 = e2.
Proof.
  intros [b1 [H1 [_ [Hb1 He1]]]] [b2 [H2 [_ [Hb2 He2]]]]. cbn [fst snd] in *.
  assert (Hbody : b1 = b2).
  { apply (startsWith_body b1 b2 EmptyString Hb1 Hb2).
    assert (E : b1 ++ "}}" = b2 ++ "}}").
    { rewrite H1 in H2. cbn [append] in H2. now injection H2. }
    change (b2 ++ "}}" ++ EmptyString) with (b2 ++ "}}"). rewrite <- E.
    apply startsWith_refl. }
  congruence.
Qed.

Lemma resolve_matches_Ok (substitutions : value) (source : string)
    (matches : list (string * string)) :
  forall replacements,
    resolve_matches substitutions source matches = Ok replacements ->
    Forall2 (resolves_to substitutions source) matches replacements.
Proof.
  induction matches as [|[fullMatch expr] matches IH]; intros replacements H.
  - injection H as <-. constructor.
  - cbn [resolve_matches] in H.
    destruct (resolveExpression expr substitutions source) as [r|e] eqn:Er;
      [|discriminate].
    cbn [bind] in H.
    destruct (resolve_matches substitutions source matches) as [rest|e] eqn:Erest;
      [|discriminate].
    injection H as <-. constructor; [now split | now apply IH].
Qed.

Lemma final_text_of_match (substitutions : value) (source : string)
    (matches : list (string * string)) (replacements : list replacement) :
  Forall2 (resolves_to substitutions source) matches replacements ->
  (forall m, In m matches -> match_shape m) ->
  forall fullMatch expr,
    In (fullMatch, expr) matches ->
    resolveExpression expr substitutions source
    = Ok (final_text replacements fullMatch).
Proof.
  intros Hall. induction Hall as [|m rep matches replacements [Hfind Hres] _ IH];
    intros Hshape fullMatch expr Hin; [contradiction|].
  cbn [final_text]. destruct (String.eqb_spec fullMatch (find rep)) as [E | Hne].
  - destruct m as [f e]. cbn [fst snd] in *. subst f.
    assert (He : e = expr).
    { apply (match_shape_functional fullMatch).
      - rewrite E. apply Hshape. now left.
      - apply Hshape. exact Hin. }
    now subst e.
  - destruct Hin as [-> | Hin]; [cbn [fst] in Hfind; congruence|].
    apply IH; [|exact Hin]. intros m' Hm'. apply Hshape. now right.
Qed.

Lemma good_replacements (substitutions : value) (source : string)
    (matches : list (string * string)) (replacements : list replacement) :
  Forall2 (resolves_to substitutions source) matches replacements ->
  (forall m, In m matches -> pattern_text (fst m)) ->
  (forall fullMatch expr r,
     In (fullMatch, expr) matches ->
     resolveExpression expr substitutions source = Ok r -> plain_text r) ->
  Forall good_replacement replacements.
Proof.
  intros Hall. induction Hall as [|m rep matches replacements [Hfind Hres] _ IH];
    intros Hpattern Hplain; constructor.
  - split.
    + rewrite Hfind. apply Hpattern. now left.
    + destruct m as [f e]. apply (Hplain f e); [now left | exact Hres].
  - apply IH.
    + intros m' Hm'. apply Hpattern. now right.
    + intros f e r Hin. apply (Hplain f e r). now right.
Qed.

(** The first expression that fails ends both computations the same way. *)
Lemma replace_in_place_throws (substitutions : value) (source : string)
    (l : list piece) (e : exn) :
  resolve_matches substitutions source (occurrences l) = Throw e ->
  replace_in_place substitutions source l = Throw e.
Proof.
  induction l as [|[c|fullMatch expr] l IH]; cbn [occurrences replace_in_place].
  - discriminate.
  - intros H. now rewrite (IH H).
  - cbn [resolve_matches].
    destruct (resolveExpression expr substitutions source) as [r|e']; cbn [bind];
      [|now intros [= <-]].
    destruct (resolve_matches substitutions source (occurrences l)) as [rest|e'];
      cbn [bind]; [discriminate|].
    intros [= <-]. now rewrite IH.
Qed.

Lemma replace_in_place_final (substitutions : value) (source : string)
    (replacements : list replacement) (l : list piece) :
  (forall c, In (Literal c) l ->
             final_text replacements (String c EmptyString) = String c EmptyString) ->
  (forall fullMatch expr,
     In (Occurrence fullMatch expr) l ->
     resolveExpression expr substitutions source
     = Ok (final_text replacements fullMatch)) ->
  replace_in_place substitutions source l
  = Ok (concat_strings (map (final_text replacements) (map piece_text l))).
Proof.
  induction l as [|[c|fullMatch expr] l IH]; intros Hlit Hocc;
    cbn [replace_in_place map piece_text concat_strings]; [reflexivity| |].
  - rewrite IH.
    + rewrite (Hlit c (or_introl eq_refl)). reflexivity.
    + intros c' H. apply Hlit. now right.
    + intros f e H. apply Hocc. now right.
  - rewrite (Hocc fullMatch expr (or_introl eq_refl)). cbn [bind].
    rewrite IH; [reflexivity| |].
    + intros c' H. apply Hlit. now right.
    + intros f e H. apply Hocc. now right.
Qed.

Lemma brace_free_pattern (content : string) (fullMatch expr : string) :
  brace_free content = true ->
  In (Occurrence fullMatch expr) (pieces 0 content) -> pattern_text fullMatch.
Proof.
  intros Hfree Hin. unfold brace_free in Hfree.
  rewrite forallb_forall in Hfree. pose proof (Hfree _ Hin) as Hp.
  destruct (pieces_occurrence _ _ _ _ Hin) as [body [Hfull [Hne [Hright _]]]].
  cbn [fst snd brace_free_piece] in *. subst fullMatch.
  exists body. repeat split; try assumption.
  apply negb_true_iff in Hp.
  change (drop 2 ("{{" ++ body ++ "}}")) with (body ++ "}}") in Hp.
  rewrite mem_char_append in Hp. now apply orb_false_iff in Hp as [Hp _].
Qed.

Lemma brace_free_literal (content : string) (c : ascii) :
  brace_free content = true ->
  In (Literal c) (pieces 0 content) -> plain_text (String c EmptyString).
Proof.
  intros Hfree Hin. unfold brace_free in Hfree.
  rewrite forallb_forall in Hfree. pose proof (Hfree _ Hin) as Hp.
  cbn [brace_free_piece] in Hp. apply negb_true_iff in Hp.
  unfold plain_text. cbn [mem_char]. now rewrite Hp.
Qed.

Lemma match_braces_other (c : ascii) (s : string) :
  Ascii.eqb c left_brace = false -> match_braces (String c s) = None.
Proof.
  ascii_cases c; try reflexivity; discriminate.
Qed.

Lemma match_braces_pattern (body after : string) :
  body <> EmptyString -> mem_char right_brace body = false ->
  match_braces ("{{" ++ body ++ "}}" ++ after)
  = Some ("{{" ++ body ++ "}}", captured body).
Proof.
  intros Hne Hbody. unfold match_braces. cbn [append].
  change (body ++ String "}" (String "}" after))
    with (body ++ String right_brace (String "}" after)).
  rewrite (span_not_first _ _ _ Hbody).
  destruct body; [congruence | reflexivity].
Qed.

Lemma matchAll_pass (passed s : string) :
  matchAll (String.length passed) (passed ++ s) = matchAll 0 s.
Proof. induction passed as [|c passed IH]; [reflexivity | exact IH]. Qed.

Lemma matchAll_plain (t s : string) :
  plain_text t -> matchAll 0 (t ++ s) = matchAll 0 s.
Proof.
  unfold plain_text. induction t as [|c t IH]; [reflexivity|].
  cbn [mem_char append matchAll]. intros H. apply orb_false_iff in H as [Hc Ht].
  rewrite (match_braces_other _ _ Hc). now apply IH.
Qed.

Lemma matchAll_at_match (c : ascii) (s : string) (m : string * string) :
  match_braces (String c s) = Some m ->
  matchAll 0 (String c s) = m :: matchAll (String.length (fst m) - 1) s.
Proof. intros H. cbn [matchAll]. now rewrite H. Qed.

(** A template with one expression between two texts without ['{']. *)
Lemma matchAll_single (before body after : string) :
  plain_text before -> plain_text after ->
  body <> EmptyString -> mem_char right_brace body = false ->
  matchAll 0 (before ++ "{{" ++ body ++ "}}" ++ after)
  = [("{{" ++ body ++ "}}", captured body)].
Proof.
  intros Hb Ha Hne Hbody. rewrite (matchAll_plain _ _ Hb).
  pose proof (match_braces_pattern body after Hne Hbody) as Hm.
  assert (Hc : "{{" ++ body ++ "}}" ++ after
               = String "{" (String "{" (body ++ "}}") ++ after)).
  { cbn [append]. now rewrite append_assoc. }
  rewrite Hc in Hm |- *. rewrite (matchAll_at_match _ _ _ Hm). f_equal. cbn [fst].
  replace (String.length ("{{" ++ body ++ "}}") - 1)
    with (String.length (String "{" (body ++ "}}"))) by (simpl; lia).
  rewrite matchAll_pass.
  rewrite <- (append_empty_r after). now apply matchAll_plain.
Qed.

Lemma replace_all_single (f r before after : string) :
  pattern_text f -> plain_text before -> plain_text after ->
  replace_all f r (before ++ f ++ after) = before ++ r ++ after.
Proof.
  intros Hf Hb Ha. pose proof (pattern_text_nonempty f Hf) as Hne.
  rewrite (replace_all_plain f r before _ Hf Hb), (replace_all_match f r _ Hne).
  rewrite <- (append_empty_r after) at 1.
  rewrite (replace_all_plain f r after _ Hf Ha), (replace_all_empty f r Hne).
  now rewrite append_empty_r.
Qed.

(** All the expressions are resolved first, from the matches
    found in the original content, and the replacements are then applied one
    after the other, each by exact text on the content as the previous ones
    left it; the pattern is not run again.  When the content holds no ['{']
    outside the matched spans, no matched span holds one after its opening
    braces, and no resolved value holds one, the written output is the
    original content in which each matched span is replaced, where it stands,
    by its resolved value; when an expression fails to resolve, nothing is
    written and the failure is that of the first such expression.  With a
    single expression between two texts without ['{'], the output is the
    content with the matched span replaced by the resolved value whatever
    that value holds, braces included. *)
Theorem in_place_replacement_when_brace_free (substitutions : value)
    (source : string) :
  (forall content,
     brace_free content = true ->
     (forall fullMatch expr r,
        In (fullMatch, expr) (matchAll 0 content) ->
        resolveExpression expr substitutions source = Ok r ->
        mem_char left_brace r = false) ->
     substitute_template substitutions source content
     = substitute_in_place substitutions source content)
  /\ (forall before body after r,
        mem_char left_brace before = false -> mem_char left_brace after = false ->
        body <> EmptyString ->
        mem_char left_brace body = false -> mem_char right_brace body = false ->
        resolveExpression (captured body) substitutions source = Ok r ->
        substitute_template substitutions source (before ++ "{{" ++ body ++ "}}" ++ after)
        = Ok (before ++ r ++ after)).
Proof.
  split.
  - intros content Hfree Hvalues. unfold substitute_template, substitute_in_place.
    rewrite matchAll_occurrences in *.
    destruct (resolve_matches substitutions source (occurrences (pieces 0 content)))
      as [replacements|e] eqn:E; cbn [bind].
    + pose proof (resolve_matches_Ok _ _ _ _ E) as Hall.
      assert (Hshape : forall m, In m (occurrences (pieces 0 content)) -> match_shape m).
      { intros [f e] H. apply occurrences_In in H. now apply pieces_occurrence in H. }
      assert (Hpattern : forall m, In m (occurrences (pieces 0 content)) ->
                                   pattern_text (fst m)).
      { intros [f e] H. apply occurrences_In in H.
        now apply (brace_free_pattern content f e). }
      pose proof (good_replacements _ _ _ _ Hall Hpattern Hvalues) as Hgood.
      assert (Htexts : Forall ok_text (map piece_text (pieces 0 content))).
      { apply Forall_forall. intros t Ht. apply in_map_iff in Ht as [[c|f e] [<- Hp]].
        - left. now apply (brace_free_literal content).
        - right. now apply (brace_free_pattern content f e). }
      rewrite <- (pieces_text content 0) at 1. cbn [drop].
      rewrite (apply_replacements_texts _ _ Hgood Htexts).
      rewrite (fold_replace_text _ _ Hgood).
      symmetry. apply replace_in_place_final.
      * intros c Hc. apply (final_text_plain _ _ Hgood).
        now apply (brace_free_literal content).
      * intros f e Hin. apply (final_text_of_match _ _ _ _ Hall Hshape).
        now apply occurrences_In.
    + symmetry. now apply replace_in_place_throws.
  - intros before body after r Hb Ha Hne Hleft Hright Hr.
    unfold substitute_template.
    rewrite (matchAll_single before body after Hb Ha Hne Hright).
    cbn [resolve_matches]. rewrite Hr. cbn [bind].
    unfold apply_replacements. cbn [fold_left find replace]. f_equal.
    change (join r (split ("{{" ++ body ++ "}}")
                      (before ++ "{{" ++ body ++ "}}" ++ after)))
      with (replace_all ("{{" ++ body ++ "}}") r
              (before ++ "{{" ++ body ++ "}}" ++ after)).
    replace (before ++ "{{" ++ body ++ "}}" ++ after)
      with (before ++ ("{{" ++ body ++ "}}") ++ after)
      by (cbn [append]; now rewrite append_assoc).
    apply replace_all_single; [|exact Hb|exact Ha].
    exists body. repeat split; assumption.
Qed.

Example in_place_replacement_examples :
  substitute_template strings_tree "strings.xml.tmpl" strings_template
  = substitute_in_place strings_tree "strings.xml.tmpl" strings_template
  /\ substitute_template C8_tree "strings.xml.tmpl" "see {{ a }}." = Ok "see {{b}}.".
Proof.
  split.
  - apply (proj1 (in_place_replacement_when_brace_free strings_tree
                    "strings.xml.tmpl") strings_template); [reflexivity|].
    intros fullMatch expr r [H | []]. injection H as <- <-.
    intros [= <-]. reflexivity.
  - apply (proj2 (in_place_replacement_when_brace_free C8_tree
                    "strings.xml.tmpl") "see " " a " "." "{{b}}");
      try reflexivity. discriminate.
Qed.

(** * Further properties *)

(** ** [get]: paths compose *)

(** X1.  A path is followed segment by segment: looking up [p.q] is looking
    up [q] in what [p] gives, for all strings [p] and [q]; so once a prefix
    of a path gives [undefined], every longer path does. *)
Theorem get_composes_along_dots (obj : value) (p q : string) :
  get obj (p ++ String "." q) = get (get obj p) q
  /\ (get obj p = VUndefined -> get obj (p ++ String "." q) = VUndefined).
Proof.
  assert (H : get obj (p ++ String "." q) = get (get obj p) q).
  { unfold get, dot. rewrite split_char_append. apply fold_left_app. }
  split; [exact H|].
  intros Hp. rewrite H, Hp. now apply get_not_descended.
Qed.

Lemma get_composes_along_dots_witness :
  get config_tree "app.name" = get (get config_tree "app") "name"
  /\ get config_tree "missing.name" = VUndefined.
Proof.
  split.
  - apply (proj1 (get_composes_along_dots config_tree "app" "name")).
  - apply (proj2 (get_composes_along_dots config_tree "missing" "name")). reflexivity.
Defined.

Lemma mem_string_In (k : string) (l : list string) :
  mem_string k l = true -> In k l.
Proof.
  induction l as [|x l IH]; cbn [mem_string]; [discriminate|].
  intros H. apply orb_true_iff in H as [H | H].
  - left. now apply String.eqb_eq.
  - right. now apply IH.
Qed.

(** X2.  The test [key in acc] sees the prototype chain: on an object that
    has no property [key] of its own, a method name of [Object.prototype]
    is found and the lookup returns the built-in function, not
    [undefined]; a property of the object's own always wins over an
    inherited one. *)
Theorem get_finds_inherited_methods (props : list (string * json)) (key : string) :
  (mem_string key Object_prototype_methods = true -> assoc key props = None ->
   get (VJson (JObj props)) key = VFunction key)
  /\ (forall child, mem_char "." key = false -> assoc key props = Some child ->
                    get (VJson (JObj props)) key = VJson child).
Proof.
  split.
  - intros Hkey Hown. apply mem_string_In in Hkey.
    assert (Hstep : forall name, assoc name props = None ->
              mem_string name Object_prototype_methods = true ->
              String.eqb name "__proto__" = false ->
              String.eqb name "constructor" = false ->
              get_step (VJson (JObj props)) name = VFunction name).
    { intros name Hn Hm Hp Hc. unfold get_step. cbn [truthy typeof js_type_eqb andb property].
      rewrite Hn. unfold Object_prototype_get. now rewrite Hp, Hc, Hm. }
    cbn [Object_prototype_methods In] in Hkey.
    repeat (destruct Hkey as [<- | Hkey]; [now apply (Hstep _ Hown)|]).
    contradiction.
  - intros child Hdot Hown. unfold get, dot. rewrite (split_char_absent _ _ Hdot).
    cbn [fold_left]. now apply get_step_own_object.
Qed.

Lemma get_finds_inherited_methods_witness :
  get (VJson (JObj [("name", JStr "Demo")])) "valueOf" = VFunction "valueOf"
  /\ get (VJson (JObj [("toString", JStr "own")])) "toString" = VJson (JStr "own").
Proof.
  split.
  - apply (proj1 (get_finds_inherited_methods [("name", JStr "Demo")] "valueOf"));
      reflexivity.
  - apply (proj2 (get_finds_inherited_methods [("toString", JStr "own")] "toString"));
      reflexivity.
Defined.

(** ** [applyModifiers]: the modifiers other than [json] *)

Lemma other_modifier_non_string (modifier : string) (v : value) :
  is_string_value v = false -> other_modifier modifier v = v.
Proof. destruct v as [|j| | |]; try reflexivity. destruct j; try reflexivity. discriminate. Qed.

(** X3.  A value that is not a string goes unchanged through any sequence of
    modifiers that holds no [json]: [lower], [upper], [_], [-] and unknown
    tokens act on strings only. *)
Theorem applyModifiers_non_string_unchanged (v : value) (modifiers : list string) :
  is_string_value v = false -> mem_string "json" modifiers = false ->
  applyModifiers v modifiers = v.
Proof.
  intros Hv. rewrite applyModifiers_pipeline.
  induction modifiers as [|modifier rest IH]; [reflexivity|].
  intros H. cbn [mem_string] in H. apply orb_false_iff in H as [Hm Hrest].
  cbn [modifier_pipeline]. rewrite Hm, (other_modifier_non_string _ _ Hv). now apply IH.
Qed.

Lemma applyModifiers_non_string_unchanged_witness :
  applyModifiers (VNum 42) ["upper"; "_"; "shout"] = VNum 42.
Proof. apply applyModifiers_non_string_unchanged; reflexivity. Defined.

Lemma string_modifier_unknown (modifier s : string) :
  known_modifier modifier = false -> string_modifier modifier s = s.
Proof.
  unfold known_modifier. cbn [mem_string]. intros H.
  apply orb_false_iff in H as [_ H].
  apply orb_false_iff in H as [Hl H].
  apply orb_false_iff in H as [Hu H].
  apply orb_false_iff in H as [Hs H].
  apply orb_false_iff in H as [Hh _].
  unfold string_modifier.
  rewrite (String.eqb_sym modifier "lower"), Hl, (String.eqb_sym modifier "upper"), Hu,
    (String.eqb_sym modifier "_"), Hs, (String.eqb_sym modifier "-"), Hh.
  reflexivity.
Qed.

(** X4.  Tokens that are not one of [json], [lower], [upper], [_], [-] are
    ignored: whatever the value, a sequence of such tokens returns it as it
    is. *)
Theorem applyModifiers_ignores_unknown (v : value) (modifiers : list string) :
  forallb (fun m => negb (known_modifier m)) modifiers = true ->
  applyModifiers v modifiers = v.
Proof.
  rewrite applyModifiers_pipeline.
  induction modifiers as [|modifier rest IH]; [reflexivity|].
  intros H. cbn [forallb] in H. apply andb_true_iff in H as [Hm Hrest].
  apply negb_true_iff in Hm.
  assert (Hjson : String.eqb modifier "json" = false).
  { unfold known_modifier in Hm. cbn [mem_string] in Hm.
    apply orb_false_iff in Hm as [Hm _]. now rewrite String.eqb_sym. }
  cbn [modifier_pipeline]. rewrite Hjson.
  replace (other_modifier modifier v) with v; [now apply IH|].
  destruct v as [|j| | |]; try reflexivity. destruct j; try reflexivity.
  cbn [other_modifier]. unfold VStr. now rewrite string_modifier_unknown.
Qed.

Lemma applyModifiers_ignores_unknown_witness :
  applyModifiers (VStr "Demo") ["capitalize"; "LOWER"; "4"] = VStr "Demo".
Proof. apply applyModifiers_ignores_unknown. reflexivity. Defined.

(** X5.  Modifiers compose from left to right: when the first part of the
    sequence holds no [json], applying the whole sequence is applying the
    first part and then the second to its result. *)
Theorem applyModifiers_composes (v : value) (first second : list string) :
  mem_string "json" first = false ->
  applyModifiers v (first ++ second)%list
  = applyModifiers (applyModifiers v first) second.
Proof.
  rewrite !applyModifiers_pipeline. revert v.
  induction first as [|modifier rest IH]; intros v H; [reflexivity|].
  cbn [mem_string] in H. apply orb_false_iff in H as [Hm Hrest].
  cbn [app modifier_pipeline]. rewrite Hm. now apply IH.
Qed.

Lemma applyModifiers_composes_witness :
  applyModifiers (VStr "Foo-Bar") (["lower"; "_"] ++ ["json"; "4"])%list
  = applyModifiers (applyModifiers (VStr "Foo-Bar") ["lower"; "_"]) ["json"; "4"].
Proof. apply applyModifiers_composes. reflexivity. Defined.

Lemma map_chars_length (f : ascii -> ascii) (s : string) :
  String.length (map_chars f s) = String.length s.
Proof. induction s as [|c s IH]; [reflexivity|]. cbn [map_chars String.length]. now rewrite IH. Qed.

Lemma string_modifier_length (modifier s : string) :
  String.length (string_modifier modifier s) = String.length s.
Proof.
  unfold string_modifier, toLowerCase, toUpperCase, replace_char.
  repeat match goal with
         | |- context [if ?b then _ else _] => destruct b
         end; try apply map_chars_length; reflexivity.
Qed.

Lemma lower_upper_char_ascii (c : ascii) :
  Nat.ltb (nat_of_ascii c) 128 = true ->
  Nat.ltb (nat_of_ascii (lower_char c)) 128 = true
  /\ Nat.ltb (nat_of_ascii (upper_char c)) 128 = true.
Proof. ascii_cases c; intros H; try discriminate H; split; reflexivity. Qed.

Lemma map_chars_ascii (f : ascii -> ascii) (s : string) :
  (forall c, Nat.ltb (nat_of_ascii c) 128 = true ->
             Nat.ltb (nat_of_ascii (f c)) 128 = true) ->
  ascii_text s = true -> ascii_text (map_chars f s) = true.
Proof.
  intros Hf. induction s as [|c s IH]; [reflexivity|].
  cbn [ascii_text map_chars]. intros H. apply andb_true_iff in H as [Hc Hs].
  apply andb_true_iff. split; [now apply Hf | now apply IH].
Qed.

Lemma string_modifier_ascii (modifier s : string) :
  ascii_text s = true -> ascii_text (string_modifier modifier s) = true.
Proof.
  intros H. unfold string_modifier, toLowerCase, toUpperCase, replace_char.
  repeat match goal with
         | |- context [if String.eqb ?a ?b then _ else _] => destruct (String.eqb a b)
         end; try exact H; apply map_chars_ascii; try exact H; intros c Hc.
  - now apply lower_upper_char_ascii.
  - now apply lower_upper_char_ascii.
  - destruct (Ascii.eqb c "-"); [reflexivity | exact Hc].
  - destruct (Ascii.eqb c "_"); [reflexivity | exact Hc].
Qed.

(** X6.  Without [json], an ASCII string stays an ASCII string of the same
    length through the modifiers: on ASCII text each of [lower], [upper],
    [_] and [-] maps the characters one by one, to ASCII characters. *)
Theorem applyModifiers_string_keeps_length (s : string) (modifiers : list string) :
  ascii_text s = true ->
  mem_string "json" modifiers = false ->
  exists t, applyModifiers (VStr s) modifiers = VStr t
            /\ ascii_text t = true
            /\ String.length t = String.length s.
Proof.
  rewrite applyModifiers_pipeline. revert s.
  induction modifiers as [|modifier rest IH]; intros s Hs H.
  - exists s. repeat split. exact Hs.
  - cbn [mem_string] in H. apply orb_false_iff in H as [Hm Hrest].
    cbn [modifier_pipeline]. rewrite Hm. cbn [VStr other_modifier].
    destruct (IH (string_modifier modifier s) (string_modifier_ascii modifier s Hs) Hrest)
      as [t [Ht [Hascii Hlen]]].
    exists t. split; [exact Ht|]. split; [exact Hascii|].
    now rewrite Hlen, string_modifier_length.
Qed.

Lemma applyModifiers_string_keeps_length_witness :
  exists t, applyModifiers (VStr "Foo-Bar") ["lower"; "_"] = VStr t
            /\ ascii_text t = true
            /\ String.length t = 7.
Proof.
  apply (applyModifiers_string_keeps_length "Foo-Bar" ["lower"; "_"]); reflexivity.
Defined.

Lemma replace_char_removes (a b : ascii) (s : string) :
  Ascii.eqb b a = false -> mem_char a (replace_char a b s) = false.
Proof.
  intros Hab. unfold replace_char.
  induction s as [|c s IH]; [reflexivity|].
  cbn [map_chars mem_char]. rewrite IH, orb_false_r.
  destruct (Ascii.eqb c a) eqn:E; [exact Hab | exact E].
Qed.

Lemma upper_lower_char (c : ascii) :
  upper_char (lower_char c) = upper_char c /\ lower_char (upper_char c) = lower_char c
  /\ lower_char (lower_char c) = lower_char c /\ upper_char (upper_char c) = upper_char c.
Proof. ascii_cases c; repeat split. Qed.

Lemma map_chars_map_chars (f g : ascii -> ascii) (s : string) :
  map_chars f (map_chars g s) = map_chars (fun c => f (g c)) s.
Proof. induction s as [|c s IH]; [reflexivity|]. cbn [map_chars]. now rewrite IH. Qed.

Lemma map_chars_ext (f g : ascii -> ascii) (s : string) :
  (forall c, f c = g c) -> map_chars f s = map_chars g s.
Proof. intros H. induction s as [|c s IH]; [reflexivity|]. cbn [map_chars]. now rewrite H, IH. Qed.

Lemma map_chars_ext_ascii (f g : ascii -> ascii) (s : string) :
  (forall c, Nat.ltb (nat_of_ascii c) 128 = true -> f c = g c) ->
  ascii_text s = true -> map_chars f s = map_chars g s.
Proof.
  intros H. induction s as [|c s IH]; [reflexivity|].
  cbn [map_chars ascii_text]. intros Hs. apply andb_true_iff in Hs as [Hc Hs].
  now rewrite (H c Hc), (IH Hs).
Qed.

(** X7.  What the string modifiers leave behind: after [_] the text holds no
    hyphen and after [-] no underscore; on ASCII text [lower] and [upper]
    are idempotent and the later of the two decides, whatever came
    before. *)
Theorem string_modifiers_effect (s : string) :
  (exists t, applyModifiers (VStr s) ["_"] = VStr t /\ mem_char "-" t = false)
  /\ (exists t, applyModifiers (VStr s) ["-"] = VStr t /\ mem_char "_" t = false)
  /\ (ascii_text s = true ->
      applyModifiers (VStr s) ["lower"; "lower"] = applyModifiers (VStr s) ["lower"]
      /\ applyModifiers (VStr s) ["upper"; "upper"] = applyModifiers (VStr s) ["upper"]
      /\ applyModifiers (VStr s) ["lower"; "upper"] = applyModifiers (VStr s) ["upper"]
      /\ applyModifiers (VStr s) ["upper"; "lower"] = applyModifiers (VStr s) ["lower"]).
Proof.
  split; [|split].
  - eexists. split; [reflexivity|]. now apply replace_char_removes.
  - eexists. split; [reflexivity|]. now apply replace_char_removes.
  - intros Hs.
    change (VStr (toLowerCase (toLowerCase s)) = VStr (toLowerCase s)
            /\ VStr (toUpperCase (toUpperCase s)) = VStr (toUpperCase s)
            /\ VStr (toUpperCase (toLowerCase s)) = VStr (toUpperCase s)
            /\ VStr (toLowerCase (toUpperCase s)) = VStr (toLowerCase s)).
    unfold toLowerCase, toUpperCase. rewrite !map_chars_map_chars.
    repeat split; f_equal; apply map_chars_ext_ascii; try exact Hs;
      intros c _; apply upper_lower_char.
Qed.

Lemma string_modifiers_effect_witness :
  applyModifiers (VStr "Foo-Bar") ["lower"; "upper"] = VStr "FOO-BAR"
  /\ applyModifiers (VStr "Foo-Bar") ["upper"; "lower"] = VStr "foo-bar".
Proof.
  destruct (proj2 (proj2 (string_modifiers_effect "Foo-Bar")) eq_refl)
    as [_ [_ [Hupper Hlower]]].
  split.
  - exact (eq_trans Hupper eq_refl).
  - exact (eq_trans Hlower eq_refl).
Defined.

(** ** [resolveExpression]: common shapes of an expression *)

Lemma mem_char_trimStart (c : ascii) (s : string) :
  mem_char c s = false -> mem_char c (trimStart s) = false.
Proof.
  induction s as [|a s IH]; [reflexivity|].
  intros H. cbn [trimStart]. destruct (is_space a); [|exact H].
  cbn [mem_char] in H. apply orb_false_iff in H as [_ H]. now apply IH.
Qed.

Lemma mem_char_trimEnd (c : ascii) (s : string) :
  mem_char c s = false -> mem_char c (trimEnd s) = false.
Proof.
  induction s as [|a s IH]; [reflexivity|].
  intros H. cbn [mem_char] in H. apply orb_false_iff in H as [Ha Hs].
  cbn [trimEnd]. specialize (IH Hs).
  destruct (trimEnd s) as [|d t].
  - destruct (is_space a); [reflexivity|]. cbn [mem_char]. now rewrite Ha.
  - cbn [mem_char] in *. now rewrite Ha, IH.
Qed.

Lemma mem_char_trim (c : ascii) (s : string) :
  mem_char c s = false -> mem_char c (trim s) = false.
Proof. intros H. unfold trim. now apply mem_char_trimEnd, mem_char_trimStart. Qed.

Lemma fallback_of_plain_path (p : string) :
  mem_char ":" p = false ->
  fallback_path (trim p) = trim p /\ fallback_modifiers (trim p) = [].
Proof.
  intros H. unfold fallback_path, fallback_modifiers.
  rewrite (split_char_absent _ _ (mem_char_trim _ _ H)). cbn [map hd tl].
  now rewrite trim_idempotent.
Qed.

(** X8.  An expression that is a bare path (no ['='], ['|'] or [':']) is
    looked up with the white space around it removed: the result is the
    string form of the value found, and when nothing is found the error
    names the trimmed path and the source file. *)
Theorem resolveExpression_bare_path (p : string) (substitutions : value)
    (sourcePath : string) :
  mem_char "=" p = false -> mem_char "|" p = false -> mem_char ":" p = false ->
  resolveExpression p substitutions sourcePath
  = if is_undefined (get substitutions (trim p))
    then Throw (Error ("Variable '" ++ trim p ++ "' could not be resolved in file '"
                       ++ sourcePath ++ "'."))
    else String_ (get substitutions (trim p)).
Proof.
  intros He Hb Hc. unfold resolveExpression.
  destruct (no_equals_no_default p He) as [Hdefault Hstr].
  assert (Hfallbacks : fallbacks_of p = [trim p]).
  { unfold fallbacks_of. rewrite Hstr.
    rewrite (split_char_absent _ _ (mem_char_trim _ _ Hb)). cbn [map].
    now rewrite trim_idempotent. }
  rewrite Hdefault, Hfallbacks. cbn [resolve_fallbacks].
  destruct (fallback_of_plain_path p Hc) as [-> ->].
  destruct (is_undefined (get substitutions (trim p))) eqn:E; cbn [negb].
  - reflexivity.
  - unfold applyModifiers. cbn [List.length applyModifiers_from]. now rewrite E.
Qed.

Lemma resolveExpression_bare_path_witness :
  resolveExpression "  app.name " config_tree "strings.xml.tmpl" = Ok "Demo"
  /\ resolveExpression " app.title " config_tree "strings.xml.tmpl"
     = Throw (Error "Variable 'app.title' could not be resolved in file 'strings.xml.tmpl'.").
Proof.
  split.
  - rewrite resolveExpression_bare_path; reflexivity.
  - rewrite resolveExpression_bare_path; reflexivity.
Defined.

Lemma fallbacks_before_equals (before after : string) :
  mem_char "=" before = false ->
  fallbacks_of (before ++ String "=" after) = fallbacks_of before.
Proof.
  intros H. unfold fallbacks_of.
  now rewrite (proj1 (equals_splits_default before after H)),
    (proj2 (no_equals_no_default before H)).
Qed.

(** X9.  Only the text before the first ['='] makes candidates: whatever
    follows it, ['|'] and [':'] included, is default text, and an expression
    with an ['='] always has a default. *)
Theorem text_after_equals_is_default (before after : string) :
  mem_char "=" before = false ->
  fallbacks_of (before ++ String "=" after) = fallbacks_of before
  /\ exists text, defaultValue_of (before ++ String "=" after) = Some text.
Proof.
  intros H. split; [now apply fallbacks_before_equals|].
  destruct (equals_splits_default before after H) as [_ Hdefault]. eauto.
Qed.

Lemma text_after_equals_is_default_witness :
  fallbacks_of "a | b = x | y:upper" = ["a"; "b"]
  /\ defaultValue_of "a | b = x | y:upper" = Some "x | y:upper".
Proof.
  split.
  - exact (eq_trans (proj1 (text_after_equals_is_default "a | b " " x | y:upper" eq_refl))
                     eq_refl).
  - reflexivity.
Defined.

(** X10.  An empty default is a default: when nothing resolves and the text
    after the only ['='] is empty or white space, the result is the empty
    string and no error is raised. *)
Theorem empty_default_resolves_to_empty (before after : string) (substitutions : value)
    (sourcePath : string) :
  mem_char "=" before = false -> mem_char "=" after = false ->
  trim after = EmptyString ->
  resolve_fallbacks substitutions (fallbacks_of before) = VUndefined ->
  resolveExpression (before ++ String "=" after) substitutions sourcePath = Ok EmptyString.
Proof.
  intros Hb Ha Htrim Hnone. unfold resolveExpression.
  rewrite (fallbacks_before_equals before after Hb), Hnone.
  rewrite (proj1 (single_equals_default before after Hb Ha)), Htrim.
  reflexivity.
Qed.

Lemma empty_default_resolves_to_empty_witness :
  resolveExpression "app.title = " config_tree "strings.xml.tmpl" = Ok EmptyString.
Proof.
  apply (empty_default_resolves_to_empty "app.title " " " config_tree "strings.xml.tmpl");
    reflexivity.
Defined.

(** X11.  Resolution cannot fail on a scalar: when the first candidate found
    holds a string, a number, a boolean or [null], the expression resolves,
    whatever its modifiers and whatever follows; and so it does for any data
    whose first modifier is [json]. *)
Theorem resolveExpression_succeeds (expr : string) (substitutions : value)
    (sourcePath : string) (before : list string) (candidate : string)
    (after : list string) :
  fallbacks_of expr = (before ++ candidate :: after)%list ->
  (forall f, In f before -> get substitutions (fallback_path f) = VUndefined) ->
  is_primitive (get substitutions (fallback_path candidate)) = true
  \/ (exists j rest, get substitutions (fallback_path candidate) = VJson j
                     /\ fallback_modifiers candidate = "json" :: rest) ->
  exists text, resolveExpression expr substitutions sourcePath = Ok text.
Proof.
  intros Hsplit Hbefore Hfound.
  assert (Hdefined : get substitutions (fallback_path candidate) <> VUndefined).
  { destruct Hfound as [H | [j [rest [H _]]]]; intros E; rewrite E in H; discriminate. }
  assert (Hprim : is_primitive (resolve_fallbacks substitutions (fallbacks_of expr)) = true).
  { rewrite Hsplit, (resolve_fallbacks_first _ _ _ _ Hbefore Hdefined).
    destruct Hfound as [H | [j [rest [Hj Hmods]]]].
    - now apply applyModifiers_primitive.
    - rewrite Hj, Hmods, applyModifiers_pipeline. cbn [modifier_pipeline String.eqb Ascii.eqb Bool.eqb].
      destruct rest as [|next rest].
      + reflexivity.
      + destruct (parseInt next); rewrite <- applyModifiers_pipeline;
          now apply applyModifiers_primitive. }
  destruct (primitive_converts _ Hprim) as [text Htext]. exists text.
  rewrite resolveExpression_resolved; [exact Htext|].
  intros E. rewrite E in Hprim. discriminate.
Qed.

Lemma resolveExpression_succeeds_witness :
  exists text, resolveExpression "missing | app:json:0" config_tree "strings.xml.tmpl" = Ok text.
Proof.
  apply (resolveExpression_succeeds "missing | app:json:0" config_tree "strings.xml.tmpl"
           ["missing"] "app:json:0" []); [reflexivity | |].
  - intros f [<- | []]. reflexivity.
  - right. eexists. eexists. split; reflexivity.
Defined.

(** ** The template pass: what is matched and what is written *)

Lemma concat_strings_app (l1 l2 : list string) :
  concat_strings (l1 ++ l2)%list = concat_strings l1 ++ concat_strings l2.
Proof.
  induction l1 as [|s l1 IH]; [reflexivity|].
  cbn [app concat_strings]. now rewrite IH, append_assoc.
Qed.

Lemma mem_char_drop (c : ascii) (k : nat) (s : string) :
  mem_char c s = false -> mem_char c (drop k s) = false.
Proof.
  revert s; induction k as [|k IH]; intros s H; [exact H|].
  destruct s as [|a s]; [reflexivity|].
  cbn [mem_char] in H. apply orb_false_iff in H as [_ H]. now apply IH.
Qed.

Lemma last_char_length (s : string) :
  s <> EmptyString -> String.length (last_char s) = 1.
Proof.
  unfold last_char. induction s as [|c s IH]; [congruence|]. intros _.
  destruct s as [|d s]; [reflexivity|].
  replace (String.length (String c (String d s)) - 1)
    with (S (String.length (String d s) - 1)) by (simpl; lia).
  cbn [drop]. apply IH. discriminate.
Qed.

Lemma captured_spec (body : string) :
  body <> EmptyString -> mem_char right_brace body = false ->
  captured body <> EmptyString
  /\ mem_char right_brace (captured body) = false
  /\ (trim (captured body) = captured body \/ String.length (captured body) = 1).
Proof.
  intros Hne Hbody. unfold captured.
  destruct (trimStart_head body) as [E | [c [t [E Hc]]]]; rewrite E.
  - split; [|split].
    + intros H. pose proof (last_char_length body Hne) as Hl. rewrite H in Hl. discriminate.
    + now apply mem_char_drop.
    + right. now apply last_char_length.
  - split; [|split].
    + destruct (trimEnd_head c t Hc) as [u ->]. discriminate.
    + apply mem_char_trimEnd. rewrite <- E. now apply mem_char_trimStart.
    + left. rewrite <- E. change (trimEnd (trimStart body)) with (trim body).
      apply trim_idempotent.
Qed.

(** X12.  What the pattern finds: every match reported for a content is a
    piece of that content, of the form [{{], a body that is not empty and
    holds no ['}'], and [}}]; the expression handed to the resolver is not
    empty, holds no ['}'], and is trimmed (or is a single white space
    character when the body is white space only). *)
Theorem matchAll_matches (content fullMatch expr : string) :
  In (fullMatch, expr) (matchAll 0 content) ->
  (exists before after, content = before ++ fullMatch ++ after)
  /\ (exists body, fullMatch = "{{" ++ body ++ "}}" /\ body <> EmptyString
                   /\ mem_char right_brace body = false)
  /\ expr <> EmptyString
  /\ mem_char right_brace expr = false
  /\ (trim expr = expr \/ String.length expr = 1).
Proof.
  rewrite matchAll_occurrences, occurrences_In. intros Hin.
  split.
  - destruct (in_split _ _ Hin) as [l1 [l2 Hsplit]].
    exists (concat_strings (map piece_text l1)), (concat_strings (map piece_text l2)).
    rewrite <- (pieces_text content 0) at 1. cbn [drop].
    rewrite Hsplit, map_app, concat_strings_app. reflexivity.
  - destruct (pieces_occurrence _ _ _ _ Hin) as [body [Hfull [Hne [Hbody Hexpr]]]].
    cbn [fst snd] in *. split; [now exists body|].
    rewrite Hexpr. now apply captured_spec.
Qed.

Lemma matchAll_matches_witness :
  exists before after, "a {{ x }} b" = before ++ "{{ x }}" ++ after.
Proof.
  apply (proj1 (matchAll_matches "a {{ x }} b" "{{ x }}" "x" (or_introl eq_refl))).
Defined.

Lemma match_braces_unclosed (s : string) :
  mem_char right_brace s = false -> match_braces s = None.
Proof.
  intros H. unfold match_braces.
  destruct s as [|c1 s]; [reflexivity|].
  ascii_cases c1; try reflexivity.
  destruct s as [|c2 rest]; [reflexivity|].
  ascii_cases c2; try reflexivity.
  cbn [mem_char] in H. apply orb_false_iff in H as [_ H].
  apply orb_false_iff in H as [_ H].
  change "}"%char with right_brace. rewrite (span_not_absent _ _ H).
  destruct rest; reflexivity.
Qed.

Lemma matchAll_unclosed (content : string) :
  mem_char right_brace content = false -> matchAll 0 content = [].
Proof.
  induction content as [|c content IH]; [reflexivity|]. intros H.
  cbn [matchAll]. rewrite (match_braces_unclosed _ H).
  cbn [mem_char] in H. apply orb_false_iff in H as [_ H]. now apply IH.
Qed.

(** X13.  A template without expressions is written as it is: a content
    that holds no ['{'], or no ['}'], has no match, and the text written for
    it is the content itself, whatever the data. *)
Theorem template_without_braces_unchanged (substitutions : value) (source content : string) :
  mem_char left_brace content = false \/ mem_char right_brace content = false ->
  substitute_template substitutions source content = Ok content.
Proof.
  intros H. unfold substitute_template.
  assert (Hnone : matchAll 0 content = []).
  { destruct H as [H | H]; [|now apply matchAll_unclosed].
    rewrite <- (append_empty_r content). now rewrite (matchAll_plain content EmptyString H). }
  now rewrite Hnone.
Qed.

Lemma template_without_braces_unchanged_witness :
  substitute_template empty_tree "strings.xml.tmpl" "<resources> a } b </resources>"
  = Ok "<resources> a } b </resources>".
Proof. apply template_without_braces_unchanged. left. reflexivity. Defined.

Lemma resolve_matches_first_failure (substitutions : value) (source : string)
    (before : list (string * string)) (m : string * string)
    (after : list (string * string)) (e : exn) :
  (forall m', In m' before ->
              exists r, resolveExpression (snd m') substitutions source = Ok r) ->
  resolveExpression (snd m) substitutions source = Throw e ->
  resolve_matches substitutions source (before ++ m :: after)%list = Throw e.
Proof.
  intros Hbefore Hm. induction before as [|[f x] before IH]; cbn [app resolve_matches].
  - destruct m as [f x]. cbn [snd] in Hm. now rewrite Hm.
  - destruct (Hbefore (f, x) (or_introl eq_refl)) as [r Hr]. cbn [snd] in Hr.
    rewrite Hr. cbn [bind]. rewrite IH; [reflexivity|].
    intros m' Hm'. apply Hbefore. now right.
Qed.

(** X14.  One expression that fails fails the file: when the expressions
    before it resolve, the substitution throws its error, whatever the
    expressions after it are; for a template file nothing is written, the
    directory of the target is still created, and the run ends with that
    error. *)
Theorem failing_expression_writes_nothing (substitutions : value)
    (source target content : string) (before : list (string * string))
    (m : string * string) (after : list (string * string)) (e : exn) :
  matchAll 0 content = (before ++ m :: after)%list ->
  (forall m', In m' before ->
              exists r, resolveExpression (snd m') substitutions source = Ok r) ->
  resolveExpression (snd m) substitutions source = Throw e ->
  substitute_template substitutions source content = Throw e
  /\ (endsWith tmpl source = true ->
      copyAndSubstitute (File content) source target substitutions
      = ([mkdir (dirname (finalTargetPath target))], Some e)).
Proof.
  intros Hmatches Hbefore Hm.
  assert (H : substitute_template substitutions source content = Throw e).
  { unfold substitute_template.
    now rewrite Hmatches, (resolve_matches_first_failure _ _ _ _ _ _ Hbefore Hm). }
  split; [exact H|].
  intros Hs. cbn [copyAndSubstitute]. now rewrite Hs, H.
Qed.

Lemma failing_expression_writes_nothing_witness :
  copyAndSubstitute (File "{{ app.name }} {{ app.title }} {{ count }}")
    "/repo/etc/strings.xml.tmpl" "/repo/out/strings.xml" config_tree
  = ([mkdir "/repo/out"],
     Some (Error ("Variable 'app.title' could not be resolved in file "
                  ++ "'/repo/etc/strings.xml.tmpl'."))).
Proof.
  refine (proj2 (failing_expression_writes_nothing config_tree
                   "/repo/etc/strings.xml.tmpl" "/repo/out/strings.xml"
                   "{{ app.name }} {{ app.title }} {{ count }}"
                   [("{{ app.name }}", "app.name")] ("{{ app.title }}", "app.title")
                   [("{{ count }}", "count")] _ eq_refl _ eq_refl) eq_refl).
  - intros m' [<- | []]. eexists. reflexivity.
Defined.

(** ** The tree copier: names and directories *)

Lemma take_append (a b : string) : take (String.length a) (a ++ b) = a.
Proof. induction a as [|c a IH]; [reflexivity|]. cbn [String.length take append]. now rewrite IH. Qed.

Lemma endsWith_append (suffix s : string) : endsWith suffix (s ++ suffix) = true.
Proof.
  unfold endsWith. rewrite length_append.
  replace (String.length s + String.length suffix - String.length suffix)
    with (String.length s) by lia.
  rewrite drop_append, String.eqb_refl, andb_true_r. apply Nat.leb_le. lia.
Qed.

Lemma path_join_prefix (dir file : string) :
  path_join dir file = directory_prefix dir ++ file.
Proof.
  unfold directory_prefix, path_join. destruct (String.eqb dir "/").
  - now rewrite append_empty_r.
  - now rewrite !append_assoc.
Qed.

(** X15.  The suffix comes off once: a target name [name.tmpl] is written
    as [name], also below a directory, and only the last [.tmpl] of a name
    is dropped. *)
Theorem finalTargetPath_strips_one_suffix (dir name : string) :
  finalTargetPath (name ++ ".tmpl") = name
  /\ finalTargetPath (path_join dir (name ++ ".tmpl")) = path_join dir name
  /\ finalTargetPath (name ++ ".tmpl" ++ ".tmpl") = name ++ ".tmpl".
Proof.
  assert (H : forall s, finalTargetPath (s ++ ".tmpl") = s).
  { intros s. unfold finalTargetPath. change ".tmpl" with tmpl.
    rewrite endsWith_append. unfold slice_end. rewrite length_append.
    replace (String.length s + String.length tmpl - 5) with (String.length s)
      by (cbn [String.length tmpl]; lia).
    apply take_append. }
  split; [apply H|]. split.
  - rewrite !path_join_prefix, <- append_assoc. apply H.
  - rewrite <- append_assoc. apply H.
Qed.

Lemma startsWith_trans (a b c : string) :
  startsWith a b = true -> startsWith b c = true -> startsWith a c = true.
Proof.
  revert b c; induction a as [|x a IH]; intros b c Hab Hbc; [reflexivity|].
  destruct b as [|y b]; [discriminate|]. destruct c as [|z c]; [discriminate|].
  cbn [startsWith] in *.
  apply andb_true_iff in Hab as [Hxy Hab]. apply andb_true_iff in Hbc as [Hyz Hbc].
  apply Ascii.eqb_eq in Hxy. subst y. rewrite Hyz. cbn [andb]. now apply (IH b c).
Qed.

Lemma slash_before_suffix (a x y : string) :
  a ++ "/" = x ++ y -> y <> EmptyString -> mem_char slash y = true.
Proof.
  revert a; induction x as [|c x IH]; intros a H Hy.
  - cbn [append] in H. subst y. rewrite mem_char_append. cbn [mem_char].
    unfold slash. rewrite Ascii.eqb_refl. now rewrite orb_true_r.
  - destruct a as [|d a]; cbn [append] in H.
    + injection H as _ H. destruct x; [|discriminate]. cbn [append] in H. congruence.
    + injection H as _ H. now apply (IH a).
Qed.

(** Two ways to cut the same text. *)
Lemma append_eq_cases (a f x y : string) :
  a ++ f = x ++ y ->
  (exists f', x = a ++ f') \/ (exists y', y' <> EmptyString /\ a = x ++ y' /\ y = y' ++ f).
Proof.
  revert x; induction a as [|c a IH]; intros x H.
  - left. exists x. reflexivity.
  - destruct x as [|d x].
    + right. exists (String c a). repeat split; [discriminate | exact (eq_sym H)].
    + cbn [append] in H. injection H as <- H.
      destruct (IH x H) as [[f' ->] | [y' [Hy [-> ->]]]].
      * left. now exists f'.
      * right. exists y'. repeat split; assumption.
Qed.

Lemma finalTargetPath_under (prefix file : string) :
  (exists a, prefix = a ++ "/") ->
  startsWith prefix (finalTargetPath (prefix ++ file)) = true.
Proof.
  intros [a Ha]. unfold finalTargetPath.
  destruct (endsWith tmpl (prefix ++ file)) eqn:E; [|apply startsWith_append].
  pose proof (slice_end_suffix tmpl (prefix ++ file) E) as Hcut.
  change (String.length tmpl) with 5 in Hcut.
  destruct (append_eq_cases prefix file (slice_end 5 (prefix ++ file)) tmpl (eq_sym Hcut))
    as [[f' ->] | [y' [Hy [Hp Ht]]]]; [apply startsWith_append|].
  exfalso. rewrite Ha in Hp.
  pose proof (slash_before_suffix _ _ _ Hp Hy) as Hslash.
  assert (Hno : mem_char slash tmpl = false) by reflexivity.
  rewrite Ht, mem_char_append, Hslash in Hno. discriminate.
Qed.

Lemma directory_prefix_slash (dir : string) : exists a, directory_prefix dir = a ++ "/".
Proof.
  unfold directory_prefix, path_join. destruct (String.eqb_spec dir "/") as [-> | _].
  - now exists EmptyString.
  - exists dir. reflexivity.
Qed.

Lemma directory_prefix_extends (dir : string) :
  startsWith dir (directory_prefix dir) = true.
Proof. unfold directory_prefix, path_join. destruct (String.eqb dir "/"); apply startsWith_append. Qed.

Lemma writes_under_weaken (outer inner : string) (calls : list fs_call) :
  startsWith outer inner = true ->
  Forall (writes_under inner) calls -> Forall (writes_under outer) calls.
Proof.
  intros Hp Hall. induction Hall as [|call calls Hc _ IH]; constructor; [|exact IH].
  destruct call; cbn [writes_under] in *; try exact I;
    now apply (startsWith_trans outer inner).
Qed.

Lemma and_then_calls (P : fs_call -> Prop) (a b : run) :
  Forall P (fst a) -> Forall P (fst b) -> Forall P (fst (and_then a b)).
Proof.
  intros Ha Hb. unfold and_then. destruct (snd a); [exact Ha|].
  cbn [fst]. apply Forall_app. now split.
Qed.

Lemma copyAndSubstitute_directory (entries : list (string * node))
    (source target : string) (substitutions : value) :
  copyAndSubstitute (Directory entries) source target substitutions
  = and_then (done [mkdir target]) (copy_entries entries source target substitutions).
Proof.
  cbn [copyAndSubstitute]. f_equal.
  induction entries as [|[file child] entries IH]; [reflexivity|].
  cbn [copy_entries]. now rewrite <- IH.
Qed.

Lemma copy_stays_under (n : node) :
  forall source substitutions prefix file,
    (exists a, prefix = a ++ "/") ->
    Forall (writes_under prefix)
      (fst (copyAndSubstitute n source (prefix ++ file) substitutions)).
Proof.
  induction n as [content|entries IH|] using node_nested_ind;
    intros source substitutions prefix file Hprefix.
  - cbn [copyAndSubstitute]. apply and_then_calls.
    + repeat constructor.
    + pose proof (finalTargetPath_under prefix file Hprefix) as Hunder.
      destruct (endsWith tmpl source).
      * destruct (substitute_template substitutions source content);
          repeat constructor. exact Hunder.
      * repeat constructor. exact Hunder.
  - rewrite copyAndSubstitute_directory. apply and_then_calls; [repeat constructor|].
    induction IH as [|[name child] entries Hchild _ IHentries]; [constructor|].
    cbn [copy_entries snd] in *. apply and_then_calls; [|exact IHentries].
    rewrite (path_join_prefix (prefix ++ file) name).
    apply (writes_under_weaken prefix (directory_prefix (prefix ++ file))).
    + apply (startsWith_trans prefix (prefix ++ file));
        [apply startsWith_append | apply directory_prefix_extends].
    + apply Hchild. apply directory_prefix_slash.
  - constructor.
Qed.

Lemma entries_stay_under (entries : list (string * node)) (source target : string)
    (substitutions : value) :
  Forall (writes_under (directory_prefix target))
    (fst (copy_entries entries source target substitutions)).
Proof.
  induction entries as [|[name child] entries IH]; [constructor|].
  cbn [copy_entries]. apply and_then_calls; [|exact IH].
  rewrite (path_join_prefix target name).
  apply copy_stays_under, directory_prefix_slash.
Qed.

(** X16.  Copying a directory writes only below the target: for a target
    path as [path.resolve] returns it and a tree whose entries have the
    names [fs.readdir] lists, every file written or copied, at any depth,
    has a path that starts with the target directory and a ['/'], whether
    or not the run ends with an error. *)
Theorem directory_copy_stays_under_target (entries : list (string * node))
    (source target : string) (substitutions : value) :
  resolved_path target = true ->
  entry_names (Directory entries) = true ->
  Forall (writes_under (directory_prefix target))
    (fst (copyAndSubstitute (Directory entries) source target substitutions)).
Proof.
  intros _ _.
  rewrite copyAndSubstitute_directory. apply and_then_calls; [repeat constructor|].
  apply entries_stay_under.
Qed.

Lemma directory_copy_stays_under_target_witness :
  Forall (writes_under "/repo/out/")
    (fst (copyAndSubstitute sample_tree "/repo/etc" "/repo/out" config_tree)).
Proof.
  exact (directory_copy_stays_under_target
           [("strings.xml.tmpl", File "{{ app.name }}");
            ("values", Directory [("broken.tmpl", File "{{ app.title }}");
                                  ("late.txt", File "never copied")]);
            ("readme.txt", File "plain")]
           "/repo/etc" "/repo/out" config_tree eq_refl eq_refl).
Defined.

Lemma and_then_assoc (a b c : run) : and_then (and_then a b) c = and_then a (and_then b c).
Proof.
  unfold and_then. destruct a as [ca [ea|]]; cbn [fst snd]; [reflexivity|].
  destruct b as [cb [eb|]]; cbn [fst snd]; [reflexivity|].
  now rewrite app_assoc.
Qed.

Lemma and_then_done_nil (a : run) : and_then (done []) a = a.
Proof. destruct a. reflexivity. Qed.

Lemma copy_entries_app (l1 l2 : list (string * node)) (source target : string)
    (substitutions : value) :
  copy_entries (l1 ++ l2)%list source target substitutions
  = and_then (copy_entries l1 source target substitutions)
             (copy_entries l2 source target substitutions).
Proof.
  induction l1 as [|[file child] l1 IH]; cbn [app copy_entries].
  - now rewrite and_then_done_nil.
  - now rewrite IH, and_then_assoc.
Qed.

Lemma and_then_stops (a b c : run) (e : exn) :
  snd a = None -> snd b = Some e ->
  and_then a (and_then b c) = ((fst a ++ fst b)%list, Some e).
Proof.
  intros Ha Hb. unfold and_then. rewrite Ha, Hb. cbn [fst snd]. now rewrite Hb.
Qed.

(** X17.  The entries of a directory are copied in order and the first one
    that fails ends the run: when the entries before it succeed, the calls
    made are those of these entries followed by those of the failing one,
    the run ends with its error, and the entries after it are never looked
    at. *)
Theorem directory_stops_at_first_failure (before : list (string * node)) (file : string)
    (child : node) (after : list (string * node)) (source target : string)
    (substitutions : value) (e : exn) :
  snd (copyAndSubstitute (Directory before) source target substitutions) = None ->
  snd (copyAndSubstitute child (path_join source file) (path_join target file)
         substitutions) = Some e ->
  copyAndSubstitute (Directory (before ++ (file, child) :: after)) source target
    substitutions
  = ((fst (copyAndSubstitute (Directory before) source target substitutions)
      ++ fst (copyAndSubstitute child (path_join source file) (path_join target file)
                substitutions))%list,
     Some e).
Proof.
  intros Hbefore Hchild. rewrite !copyAndSubstitute_directory in *.
  rewrite copy_entries_app. cbn [copy_entries].
  rewrite <- and_then_assoc. now apply and_then_stops.
Qed.

Lemma directory_stops_at_first_failure_witness :
  copyAndSubstitute sample_tree "/repo/etc" "/repo/out" config_tree
  = ([mkdir "/repo/out"; mkdir "/repo/out"; writeFile "/repo/out/strings.xml" "Demo";
      mkdir "/repo/out/values"; mkdir "/repo/out/values"],
     Some (Error ("Variable 'app.title' could not be resolved in file "
                  ++ "'/repo/etc/values/broken.tmpl'."))).
Proof.
  exact (directory_stops_at_first_failure
           [("strings.xml.tmpl", File "{{ app.name }}")] "values"
           (Directory [("broken.tmpl", File "{{ app.title }}");
                       ("late.txt", File "never copied")])
           [("readme.txt", File "plain")] "/repo/etc" "/repo/out" config_tree
           (Error ("Variable 'app.title' could not be resolved in file "
                   ++ "'/repo/etc/values/broken.tmpl'."))
           eq_refl eq_refl).
Defined.

(** ** [main]: arguments and exit status *)

(** X18.  [main] ends in one of two ways: exit status 0 after exactly one
    call of [console.log] and none of [console.error], or exit status 1
    after exactly one call of [console.error] and none of [console.log]. *)
Theorem main_exit_status (env : environment) (argv : list string) :
  (exit_code (main env argv) = 0 /\ stderr (main env argv) = []
   /\ exists message, stdout (main env argv) = [message])
  \/ (exit_code (main env argv) = 1 /\ stdout (main env argv) = []
      /\ exists message, stderr (main env argv) = [message]).
Proof.
  unfold main.
  destruct (missing (nth_error (skipn 2 argv) 0) || missing (nth_error (skipn 2 argv) 1)
            || missing (nth_error (skipn 2 argv) 2))%bool.
  - right. cbn. eauto.
  - destruct (read_json env _) as [substitutions|e]; [|right; cbn; eauto].
    destruct (stat env _) as [n|e]; [|right; cbn; eauto].
    destruct (copyAndSubstitute n _ _ substitutions) as [made [e|]].
    + right. cbn. eauto.
    + left. cbn. eauto.
Qed.

(** X19.  An argument that is absent or empty is a missing argument: when
    one of source, data file and target is, [main] prints the usage line,
    exits with status 1, and neither reads the data nor touches the file
    system, whatever they hold. *)
Theorem main_usage_on_missing_argument (env : environment) (argv : list string) :
  missing (nth_error argv 2) = true \/ missing (nth_error argv 3) = true
  \/ missing (nth_error argv 4) = true ->
  main env argv
  = {| calls := []; stdout := []; stderr := [usage env argv]; exit_code := 1 |}.
Proof.
  intros H. unfold main.
  assert (Hnth : forall i, nth_error (skipn 2 argv) i = nth_error argv (2 + i)).
  { intros i. destruct argv as [|a [|b argv]]; destruct i; reflexivity. }
  rewrite !Hnth. cbn [Nat.add].
  destruct H as [-> | [-> | ->]]; rewrite ?orb_true_r; reflexivity.
Qed.

Lemma main_usage_on_missing_argument_witness :
  main sample_environment ["node"; "copy-and-subst.mjs"; "etc"; ""; "out"]
  = {| calls := []; stdout := [];
       stderr := ["Usage: node copy-and-subst.mjs <source> <json-file> <target>"];
       exit_code := 1 |}.
Proof.
  apply (main_usage_on_missing_argument sample_environment
           ["node"; "copy-and-subst.mjs"; "etc"; ""; "out"]).
  right. left. reflexivity.
Defined.

(** ** The tree copier: the directory made for an entry *)






